(** * Padron loader: a shallow embedding of [app/utils/load_data.py]

    The development follows the class [TxtToSQLiteConverter]: text values are
    Python [str] objects (sequences of Unicode code points), a parsed record
    is a Python list of fifteen values each of which is a [str] or [None],
    and the destination table lives behind an SQLite connection whose
    statements may raise. *)

From Stdlib Require Import String Ascii.
From Stdlib Require Import List NArith ZArith Bool Lia QArith.
Import ListNotations.
Close Scope Q_scope.

Set Implicit Arguments.

(** ** Python strings *)

(** A [str] is a sequence of code points. *)
Definition char := N.
Definition str := list char.

Open Scope N_scope.

Definition chr (a : Ascii.ascii) : char := Ascii.N_of_ascii a.

(** Literal with ASCII content only. *)
Definition lit (s : String.string) : str :=
  map chr (String.list_ascii_of_string s).

Definition char_eqb : char -> char -> bool := N.eqb.

Fixpoint str_eqb (a b : str) : bool :=
  match a, b with
  | [], [] => true
  | x :: a', y :: b' => char_eqb x y && str_eqb a' b'
  | _, _ => false
  end.

Definition PIPE : char := 124.   (* '|' *)
Definition SPACE : char := 32.   (* ' ' *)
Definition DASH : char := 45.    (* '-' *)

(** [str.isspace] for one code point: the characters [str.strip()] removes
    when called without an argument. *)
Definition isspace (c : char) : bool :=
  ((9 <=? c) && (c <=? 13)) || ((28 <=? c) && (c <=? 32))
  || (c =? 133) || (c =? 160) || (c =? 5760)
  || ((8192 <=? c) && (c <=? 8202))
  || (c =? 8232) || (c =? 8233) || (c =? 8239) || (c =? 8287)
  || (c =? 12288).

Fixpoint lstrip (s : str) : str :=
  match s with
  | [] => []
  | c :: s' => if isspace c then lstrip s' else s
  end.

Definition rstrip (s : str) : str := rev (lstrip (rev s)).

(** [s.strip()] *)
Definition strip (s : str) : str := rstrip (lstrip s).

(** [s.split(sep)] for a one-character separator: always at least one
    field. *)
Fixpoint split (sep : char) (s : str) : list str :=
  match s with
  | [] => [[]]
  | c :: s' =>
      if char_eqb c sep then [] :: split sep s'
      else match split sep s' with
           | f :: fs => (c :: f) :: fs
           | [] => [[c]]
           end
  end.

(** [sep.join(parts)] *)
Fixpoint join (sep : str) (parts : list str) : str :=
  match parts with
  | [] => []
  | [p] => p
  | p :: rest => p ++ sep ++ join sep rest
  end.

Fixpoint is_prefix (p s : str) : bool :=
  match p, s with
  | [], _ => true
  | x :: p', y :: s' => char_eqb x y && is_prefix p' s'
  | _ :: _, [] => false
  end.

(** [s.replace(old, new)] for a non-empty [old]: occurrences are found left
    to right and do not overlap.  [skip] counts the characters of a match
    still to be dropped. *)
Fixpoint replace_from (old new : str) (skip : nat) (s : str) : str :=
  match s with
  | [] => []
  | c :: s' =>
      match skip with
      | S k => replace_from old new k s'
      | O =>
          if is_prefix old s
          then new ++ replace_from old new (length old - 1)%nat s'
          else c :: replace_from old new 0 s'
      end
  end.

Definition replace (old new s : str) : str := replace_from old new 0 s.

(** ** The replacement table of [clean_value] *)

(** The items of the dict display, in source order.  The key [[195]] is
    written seven times. *)
Definition replacements_items : list (str * str) :=
  [ ([195; 161], [225]); ([195; 169], [233]); ([195; 173], [237]);
    ([195; 179], [243]); ([195; 186], [250]);
    ([195; 177], [241]); ([195], [237]); ([195], [193]); ([195], [201]);
    ([195], [205]);
    ([195], [211]); ([195], [218]); ([195], [209]); ([194], []);
    ([226; 8364; 8220], lit "-");
    ([226; 8364; 339], [34]); ([226; 8364], [34]);
    ([226; 8364; 162], lit "-"); ([226; 8364; 166], lit "...") ].

(** A dict keeps the position of a key's first insertion and the value of
    its last. *)
Fixpoint dict_set (d : list (str * str)) (k v : str) : list (str * str) :=
  match d with
  | [] => [(k, v)]
  | (k', v') :: d' =>
      if str_eqb k' k then (k', v) :: d' else (k', v') :: dict_set d' k v
  end.

Definition dict_of_items (items : list (str * str)) : list (str * str) :=
  fold_left (fun d kv => dict_set d (fst kv) (snd kv)) items [].

Definition replacements : list (str * str) :=
  Eval vm_compute in dict_of_items replacements_items.

(** The loop [for wrong, correct in replacements.items()]. *)
Definition apply_replacements (s : str) : str :=
  fold_left (fun cleaned wc => replace (fst wc) (snd wc) cleaned)
            replacements s.

(** ** [clean_value] and [parse_line] *)

(** A value is a [str] or [None]. *)
Definition value := option str.

Definition clean_value (v : str) : value :=
  if str_eqb v [] || str_eqb v [DASH] || str_eqb (strip v) []
  then None
  else Some (apply_replacements (strip v)).

Definition record := list value.

Definition set_nth {A} (i : nat) (x : A) (l : list A) : list A :=
  match nth_error l i with
  | Some _ => firstn i l ++ x :: skipn (S i) l
  | None => l
  end.

(** Truth value of a Python sequence: non-empty. *)
Definition nonempty {A} (l : list A) : bool :=
  match l with
  | [] => false
  | _ :: _ => true
  end.

(** The normalisation of the field list to fifteen entries: padding with
    [None], or folding the fields from index 15 on into [values[1]]. *)
Definition normalize_fields (values : list str) : list value :=
  if (length values <? 15)%nat then
    map (@Some str) values ++ repeat None (15 - length values)%nat
  else if (15 <? length values)%nat then
    let extra_fields := skipn 15 values in
    let values := firstn 15 values in
    if nonempty extra_fields && nonempty (nth 1 values [])
    then map (@Some str)
             (set_nth 1 (nth 1 values [] ++ [SPACE] ++ join [SPACE] extra_fields)
                      values)
    else map (@Some str) values
  else map (@Some str) values.

Definition clean_opt (v : value) : value :=
  match v with
  | Some s => clean_value s
  | None => None
  end.

(** [parse_line]: [None] for a blank line.  No operation in the body can
    raise on a [str] argument, so the [except] branch is not reached. *)
Definition parse_line (line : str) : option record :=
  let cleaned := strip line in
  match cleaned with
  | [] => None
  | _ => Some (map clean_opt (normalize_fields (split PIPE cleaned)))
  end.


(** ** Text files and their codecs *)

(** The candidates of [detect_encoding], by the name passed to [open]. *)
Inductive codec := Latin1 | Iso8859_1 | Cp1252 | Utf8.

(** The text a file yields as it is read: characters up to the end of the
    file or up to bytes the codec rejects.  An error shows when reading
    reaches it; a reader that decodes ahead of the line it returns can only
    raise where this one still returns the line. *)
Inductive text :=
| Eof
| DecodeError
| Chr (c : char) (rest : text).

Fixpoint decode_latin1 (bs : list Byte.byte) : text :=
  match bs with
  | [] => Eof
  | b :: bs' => Chr (Byte.to_N b) (decode_latin1 bs')
  end.

(** Code page 1252 on 0x80..0x9F; five bytes have no character. *)
Definition cp1252_high : list (option char) :=
  [ Some 8364; None; Some 8218; Some 402; Some 8222; Some 8230; Some 8224;
    Some 8225; Some 710; Some 8240; Some 352; Some 8249; Some 338; None;
    Some 381; None;
    None; Some 8216; Some 8217; Some 8220; Some 8221; Some 8226; Some 8211;
    Some 8212; Some 732; Some 8482; Some 353; Some 8250; Some 339; None;
    Some 382; Some 376 ].

Definition cp1252_char (b : N) : option char :=
  if (128 <=? b) && (b <? 160)
  then nth (N.to_nat (b - 128)) cp1252_high None
  else Some b.

Fixpoint decode_cp1252 (bs : list Byte.byte) : text :=
  match bs with
  | [] => Eof
  | b :: bs' =>
      match cp1252_char (Byte.to_N b) with
      | Some c => Chr c (decode_cp1252 bs')
      | None => DecodeError
      end
  end.

Definition between (lo b hi : N) : bool := (lo <=? b) && (b <=? hi).

(** Second byte of a three-byte and of a four-byte UTF-8 sequence: no
    overlong forms, no surrogates, nothing above U+10FFFF. *)
Definition utf8_second3 (b0 b1 : N) : bool :=
  if b0 =? 224 then between 160 b1 191
  else if b0 =? 237 then between 128 b1 159
  else between 128 b1 191.

Definition utf8_second4 (b0 b1 : N) : bool :=
  if b0 =? 240 then between 144 b1 191
  else if b0 =? 244 then between 128 b1 143
  else between 128 b1 191.

Fixpoint decode_utf8 (bs : list Byte.byte) : text :=
  match bs with
  | [] => Eof
  | x0 :: r0 =>
      let b0 := Byte.to_N x0 in
      if b0 <? 128 then Chr b0 (decode_utf8 r0)
      else if between 194 b0 223 then
        match r0 with
        | x1 :: r1 =>
            let b1 := Byte.to_N x1 in
            if between 128 b1 191
            then Chr ((b0 - 192) * 64 + (b1 - 128)) (decode_utf8 r1)
            else DecodeError
        | _ => DecodeError
        end
      else if between 224 b0 239 then
        match r0 with
        | x1 :: x2 :: r2 =>
            let b1 := Byte.to_N x1 in
            let b2 := Byte.to_N x2 in
            if utf8_second3 b0 b1 && between 128 b2 191
            then Chr ((b0 - 224) * 4096 + (b1 - 128) * 64 + (b2 - 128))
                     (decode_utf8 r2)
            else DecodeError
        | _ => DecodeError
        end
      else if between 240 b0 244 then
        match r0 with
        | x1 :: x2 :: x3 :: r3 =>
            let b1 := Byte.to_N x1 in
            let b2 := Byte.to_N x2 in
            let b3 := Byte.to_N x3 in
            if utf8_second4 b0 b1 && between 128 b2 191 && between 128 b3 191
            then Chr ((b0 - 240) * 262144 + (b1 - 128) * 4096
                      + (b2 - 128) * 64 + (b3 - 128))
                     (decode_utf8 r3)
            else DecodeError
        | _ => DecodeError
        end
      else DecodeError
  end.

(** [open(txt_file, 'r', encoding=...)], strict error handling. *)
Definition open_text (enc : codec) (content : list Byte.byte) : text :=
  match enc with
  | Latin1 | Iso8859_1 => decode_latin1 content
  | Cp1252 => decode_cp1252 content
  | Utf8 => decode_utf8 content
  end.

Definition LF : char := 10.
Definition CR : char := 13.

(** After a carriage return, a line feed belongs to the same line end. *)
Definition skip_lf (t : text) : text :=
  match t with
  | Chr c t' => if c =? LF then t' else t
  | _ => t
  end.

(** [f.readline()] with universal newlines: the line with its end
    translated to a line feed and the rest of the text, or [None] for
    [UnicodeDecodeError]. *)
Fixpoint readline (t : text) : option (str * text) :=
  match t with
  | Eof => Some ([], Eof)
  | DecodeError => None
  | Chr c t' =>
      if c =? LF then Some ([LF], t')
      else if c =? CR then Some ([LF], skip_lf t')
      else match readline t' with
           | Some (line, rest) => Some (c :: line, rest)
           | None => None
           end
  end.

(** The loop [for _ in range(5)]: [Some true] when a line with the
    delimiter was read, [Some false] when the five lines have none, [None]
    when reading raised. *)
Fixpoint sample_lines (n : nat) (t : text) : option bool :=
  match n with
  | O => Some false
  | S n' =>
      match readline t with
      | None => None
      | Some (line, rest) =>
          if existsb (char_eqb PIPE) line then Some true
          else sample_lines n' rest
      end
  end.

Definition encodings_to_try : list codec := [Latin1; Iso8859_1; Cp1252; Utf8].

Fixpoint try_encodings (content : list Byte.byte) (encs : list codec)
  : option codec :=
  match encs with
  | [] => None
  | enc :: rest =>
      match sample_lines 5 (open_text enc content) with
      | Some true => Some enc
      | _ => try_encodings content rest
      end
  end.

Definition detect_encoding (content : list Byte.byte) : codec :=
  match try_encodings content encodings_to_try with
  | Some enc => enc
  | None => Latin1
  end.

Close Scope N_scope.
Open Scope Z_scope.

(** ** The destination table *)

(** Rows of [contribuyentes] in rowid order. *)
Definition table := list record.

(** Column [ruc], the first of the fifteen. *)
Definition ruc (r : record) : value := nth 0 r None.

Definition has_ruc (k : str) (r : record) : bool :=
  match ruc r with
  | Some k' => str_eqb k' k
  | None => false
  end.

(** [INSERT OR REPLACE INTO contribuyentes VALUES (...)]: a row with the
    same [ruc] is deleted before the new row is added.  [ruc TEXT PRIMARY
    KEY] of an ordinary rowid table accepts NULL, and a NULL conflicts
    with no row. *)
Definition insert_or_replace (r : record) (t : table) : table :=
  match ruc r with
  | Some k => filter (fun row => negb (has_ruc k row)) t ++ [r]
  | None => t ++ [r]
  end.

(** An [sqlite3] connection: the committed content of the database file and
    the content seen inside an open transaction. *)
Record connection := Connection {
  committed : table;
  pending : option table
}.

Definition working (c : connection) : table :=
  match pending c with
  | Some t => t
  | None => committed c
  end.

Definition conn_write (t : table) (c : connection) : connection :=
  {| committed := committed c; pending := Some t |}.

Definition conn_commit (c : connection) : connection :=
  {| committed := working c; pending := None |}.

Definition conn_rollback (c : connection) : connection :=
  {| committed := committed c; pending := None |}.

(** [conn.close()]: a transaction that was not committed is lost. *)
Definition conn_close (c : connection) : connection :=
  {| committed := committed c; pending := None |}.

(** ** Exceptions, output and the state of a run *)

(** [Error] stands for the subclasses of [Exception]; [KeyboardInterrupt]
    derives from [BaseException] only and passes [except Exception]. *)
Inductive raised := Error | KeyboardInterrupt.

(** What happens to one statement of the cursor: it runs, it raises an
    [sqlite3] error, or the user interrupts it. *)
Inductive stmt_outcome := StmtOk | StmtError | StmtInterrupt.

(** What reading the input file yields next: a line, an I/O error, or the
    interruption by the user. *)
Inductive read_event :=
| Line (l : str)
| ReadError
| Interrupted.

(** The printed lines that carry a figure. *)
Inductive printed :=
| BatchError
| BatchInserted (success_count batch_len : Z)
| Progress (current_line records errors : Z)
| TotalLines (n : Z)
| RecordsInserted (n : Z)
| ErrorLines (n : Z)
| DbCount (n : Z)
| Difference (n : Z)
| LoadError
| InterruptedByUser
| CriticalError.

(** The converter object, the local variables of [load_data] and the
    environment of the process.  [stmt_env] lists the outcomes of the
    coming INSERT statements (all later ones succeed), [commit_env] is
    the outcome of the COMMIT of [load_data] and [count_env] that of the
    SELECT COUNT of the final summary.  [elapsed_env] is what the final
    summary finds for [time.time() - self.start_time]: two readings of a
    coarse clock can be equal. *)
Record world := World {
  encoding : option codec;
  batch_size : Z;
  total_records : Z;
  conn : connection;
  batch_records : list record;
  lines_processed : Z;
  batch_count : Z;
  error_count : Z;
  stmt_env : list stmt_outcome;
  commit_env : stmt_outcome;
  count_env : stmt_outcome;
  elapsed_env : Q;
  stdout : list printed
}.

Definition set_encoding (v : option codec) (w : world) : world :=
  World v (batch_size w) (total_records w) (conn w) (batch_records w)
        (lines_processed w) (batch_count w) (error_count w) (stmt_env w)
        (commit_env w) (count_env w) (elapsed_env w) (stdout w).

Definition set_batch_size (v : Z) (w : world) : world :=
  World (encoding w) v (total_records w) (conn w) (batch_records w)
        (lines_processed w) (batch_count w) (error_count w) (stmt_env w)
        (commit_env w) (count_env w) (elapsed_env w) (stdout w).

Definition set_total_records (v : Z) (w : world) : world :=
  World (encoding w) (batch_size w) v (conn w) (batch_records w)
        (lines_processed w) (batch_count w) (error_count w) (stmt_env w)
        (commit_env w) (count_env w) (elapsed_env w) (stdout w).

Definition set_conn (v : connection) (w : world) : world :=
  World (encoding w) (batch_size w) (total_records w) v (batch_records w)
        (lines_processed w) (batch_count w) (error_count w) (stmt_env w)
        (commit_env w) (count_env w) (elapsed_env w) (stdout w).

Definition set_batch_records (v : list record) (w : world) : world :=
  World (encoding w) (batch_size w) (total_records w) (conn w) v
        (lines_processed w) (batch_count w) (error_count w) (stmt_env w)
        (commit_env w) (count_env w) (elapsed_env w) (stdout w).

Definition set_lines_processed (v : Z) (w : world) : world :=
  World (encoding w) (batch_size w) (total_records w) (conn w)
        (batch_records w) v (batch_count w) (error_count w) (stmt_env w)
        (commit_env w) (count_env w) (elapsed_env w) (stdout w).

Definition set_batch_count (v : Z) (w : world) : world :=
  World (encoding w) (batch_size w) (total_records w) (conn w)
        (batch_records w) (lines_processed w) v (error_count w) (stmt_env w)
        (commit_env w) (count_env w) (elapsed_env w) (stdout w).

Definition set_error_count (v : Z) (w : world) : world :=
  World (encoding w) (batch_size w) (total_records w) (conn w)
        (batch_records w) (lines_processed w) (batch_count w) v (stmt_env w)
        (commit_env w) (count_env w) (elapsed_env w) (stdout w).

Definition set_stmt_env (v : list stmt_outcome) (w : world) : world :=
  World (encoding w) (batch_size w) (total_records w) (conn w)
        (batch_records w) (lines_processed w) (batch_count w)
        (error_count w) v (commit_env w) (count_env w) (elapsed_env w) (stdout w).

Definition set_stdout (v : list printed) (w : world) : world :=
  World (encoding w) (batch_size w) (total_records w) (conn w)
        (batch_records w) (lines_processed w) (batch_count w)
        (error_count w) (stmt_env w) (commit_env w) (count_env w)
        (elapsed_env w) v.

(** A computation returns or raises, and leaves a state either way. *)
Inductive outcome (A : Type) :=
| Return (a : A)
| Raise (e : raised).
Arguments Return {A} a.
Arguments Raise {A} e.

Definition M (A : Type) : Type := world -> outcome A * world.

Definition ret {A} (a : A) : M A := fun w => (Return a, w).

Definition raise {A} (e : raised) : M A := fun w => (Raise e, w).

Definition bind {A B} (m : M A) (k : A -> M B) : M B :=
  fun w =>
    match m w with
    | (Return a, w') => k a w'
    | (Raise e, w') => (Raise e, w')
    end.

(** [try: m except Exception: handler] *)
Definition try_except {A} (m : M A) (handler : M A) : M A :=
  fun w =>
    match m w with
    | (Raise Error, w') => handler w'
    | r => r
    end.

Definition get {A} (f : world -> A) : M A := fun w => (Return (f w), w).

Definition modify (f : world -> world) : M unit := fun w => (Return tt, f w).

Definition when (b : bool) (m : M unit) : M unit := if b then m else ret tt.

Declare Scope py_scope.
Delimit Scope py_scope with py.
Notation "x <- m ;; k" := (bind m (fun x => k))
  (at level 61, m at next level, right associativity) : py_scope.
Notation "m ;; k" := (bind m (fun _ => k))
  (at level 61, right associativity) : py_scope.
Open Scope py_scope.

Definition print (p : printed) : M unit :=
  modify (fun w => set_stdout (stdout w ++ [p]) w).

Definition len {A} (l : list A) : Z := Z.of_nat (length l).

(** ** Statements on the cursor *)

(** One [cursor.execute("INSERT OR REPLACE ...", record)].  With the
    default isolation level a data-changing statement opens a transaction
    when none is open. *)
Definition execute_insert (r : record) : M unit :=
  fun w =>
    let done env' :=
      (Return tt,
       set_conn (conn_write (insert_or_replace r (working (conn w))) (conn w))
                (set_stmt_env env' w)) in
    match stmt_env w with
    | [] => done []
    | StmtOk :: env' => done env'
    | StmtError :: env' => (Raise Error, set_stmt_env env' w)
    | StmtInterrupt :: env' => (Raise KeyboardInterrupt, set_stmt_env env' w)
    end.

(** [cursor.executemany(sql, batch)]: the statement runs once per record
    and stops at the first one that raises; the rows written before stay
    in the transaction. *)
Fixpoint executemany (batch : list record) : M unit :=
  match batch with
  | [] => ret tt
  | r :: rest => execute_insert r ;; executemany rest
  end.

(** [cursor.execute("BEGIN TRANSACTION")] *)
Definition begin_transaction : M unit :=
  fun w =>
    match pending (conn w) with
    | Some _ => (Raise Error, w)
    | None =>
        (Return tt, set_conn (conn_write (committed (conn w)) (conn w)) w)
    end.

(** [conn.commit()] at the end of [load_data]. *)
Definition commit : M unit :=
  fun w =>
    match commit_env w with
    | StmtOk => (Return tt, set_conn (conn_commit (conn w)) w)
    | StmtError => (Raise Error, w)
    | StmtInterrupt => (Raise KeyboardInterrupt, w)
    end.

Definition rollback : M unit :=
  modify (fun w => set_conn (conn_rollback (conn w)) w).

(** [SELECT COUNT( * ) FROM contribuyentes] of the final summary. *)
Definition select_count : M Z :=
  fun w =>
    match count_env w with
    | StmtOk => (Return (len (working (conn w))), w)
    | StmtError => (Raise Error, w)
    | StmtInterrupt => (Raise KeyboardInterrupt, w)
    end.

(** ** [insert_batch] *)

(** The loop of the [except] branch, with its [success_count]. *)
Fixpoint insert_one_by_one (batch : list record) (success_count : Z) : M Z :=
  match batch with
  | [] => ret success_count
  | r :: rest =>
      s <- try_except (execute_insert r ;; ret (success_count + 1))
                      (ret success_count) ;;
      insert_one_by_one rest s
  end.

Definition insert_batch (batch : list record) : M unit :=
  if nonempty batch then
    try_except (executemany batch)
      (print BatchError ;;
       success_count <- insert_one_by_one batch 0 ;;
       print (BatchInserted success_count (len batch)))
  else ret tt.

(** ** [load_data] *)

Definition show_progress (current_line errors : Z) : M unit :=
  records <- get total_records ;;
  print (Progress current_line records errors).

(** The final summary.  The success rate divides by [total_lines], and
    the two rates that follow divide by the elapsed time, a float: each
    division raises [ZeroDivisionError] on a zero divisor.  The sibling
    [show_progress] tests [elapsed > 0] before it divides; this function
    does not. *)
Definition show_final_results (total_lines errors : Z) : M unit :=
  elapsed <- get elapsed_env ;;
  print (TotalLines total_lines) ;;
  records <- get total_records ;;
  print (RecordsInserted records) ;;
  print (ErrorLines errors) ;;
  (if total_lines =? 0 then raise Error else ret tt) ;;
  (if Qeq_bool elapsed 0 then raise Error else ret tt) ;;
  db_count <- select_count ;;
  print (DbCount db_count) ;;
  when (negb (records =? db_count))
       (print (Difference (Z.abs (records - db_count)))).

(** [insert_batch(batch_records); total_records += len(batch_records)] *)
Definition flush_batch : M unit :=
  batch <- get batch_records ;;
  insert_batch batch ;;
  modify (fun w => set_total_records (total_records w + len batch) w).

(** The body of the [for] loop, inside its [try]. *)
Definition process_line (line_num : Z) (line : str) : M unit :=
  (match parse_line line with
   | Some r =>
       if nonempty r
       then modify (fun w => set_batch_records (batch_records w ++ [r]) w)
       else modify (fun w => set_error_count (error_count w + 1) w)
   | None => modify (fun w => set_error_count (error_count w + 1) w)
   end) ;;
  full <- get (fun w => batch_size w <=? len (batch_records w)) ;;
  when full
    (flush_batch ;;
     modify (fun w => set_batch_count (batch_count w + 1) w) ;;
     count <- get batch_count ;;
     errors <- get error_count ;;
     when (count mod 10 =? 0) (show_progress line_num errors) ;;
     modify (set_batch_records [])) ;;
  modify (fun w => set_lines_processed (lines_processed w + 1) w) ;;
  processed <- get lines_processed ;;
  errors <- get error_count ;;
  when (processed mod 100000 =? 0) (show_progress processed errors).

(** [for line_num, line in enumerate(file, 1)] with the [try] around the
    body; reading the next line happens outside that [try]. *)
Fixpoint for_lines (line_num : Z) (file : list read_event) : M unit :=
  match file with
  | [] => ret tt
  | Line l :: rest =>
      try_except (process_line line_num l)
                 (modify (fun w => set_error_count (error_count w + 1) w)) ;;
      for_lines (line_num + 1) rest
  | ReadError :: _ => raise Error
  | Interrupted :: _ => raise KeyboardInterrupt
  end.

(** [header = file.readline()]: the rest of the file, or the fault. *)
Definition read_header (file : list read_event) : M (list read_event) :=
  match file with
  | [] => ret []
  | Line _ :: rest => ret rest
  | ReadError :: _ => raise Error
  | Interrupted :: _ => raise KeyboardInterrupt
  end.

Definition load_data (file : list read_event) : M unit :=
  modify (fun w => set_batch_records []
                     (set_lines_processed 0
                        (set_batch_count 0 (set_error_count 0 w)))) ;;
  try_except
    (begin_transaction ;;
     rest <- read_header file ;;
     for_lines 1 rest ;;
     remaining <- get batch_records ;;
     when (nonempty remaining) flush_batch ;;
     commit ;;
     total_lines <- get lines_processed ;;
     errors <- get error_count ;;
     show_final_results total_lines errors)
    (rollback ;; print LoadError ;; raise Error).

(** ** [check_memory] and [main] *)

Definition GiB : Z := 1024 ^ 3.

Definition Qltb (x y : Q) : bool := negb (Qle_bool y x).

(** [memory.available] is a byte count; the quotient by a power of two is
    exact in floating point, and so is its comparison with [1] and [0.5]. *)
Definition check_memory (available : Z) : M Q :=
  let available_gb := (inject_Z available / inject_Z GiB)%Q in
  when (Qltb available_gb 1) (modify (set_batch_size 15000)) ;;
  ret available_gb.

(** [sqlite3.connect(db_file)]: the connection starts on the content of the
    database file, outside any transaction. *)
Definition connect_db : M unit :=
  modify (fun w => set_conn {| committed := committed (conn w);
                               pending := None |} w).

(** [DROP TABLE IF EXISTS], [CREATE TABLE IF NOT EXISTS], [commit]. *)
Definition create_table : M unit :=
  modify (fun w => set_conn (conn_commit (conn_write [] (conn w))) w).

(** The passes after the load leave the rows as they are;
    [create_indexes] and [optimize_database] commit. *)
Definition create_indexes : M unit :=
  modify (fun w => set_conn (conn_commit (conn w)) w).
Definition optimize_database : M unit :=
  modify (fun w => set_conn (conn_commit (conn w)) w).
Definition verify_data : M unit := ret tt.

Definition close : M unit :=
  modify (fun w => set_conn (conn_close (conn w)) w).

(** [try: body except KeyboardInterrupt: ... except Exception: ...
    finally: close()] of [main]. *)
Definition guarded (body : M unit) : M unit :=
  fun w =>
    match body w with
    | (Return tt, w') => close w'
    | (Raise KeyboardInterrupt, w') => (print InterruptedByUser ;; close) w'
    | (Raise Error, w') => (print CriticalError ;; close) w'
    end.

(** What the process finds: whether [padron.txt] exists, its bytes as the
    detector samples them, the free memory in bytes, the answer typed at
    the prompt and what iterating the file yields during the load.  The
    database file is the committed content of [conn]. *)
Record process := Process {
  file_exists : bool;
  content : list Byte.byte;
  available : Z;
  answer : str;
  padron : list read_event
}.

(** [input(...).lower() != 's'] *)
Definition confirmed (typed : str) : bool :=
  str_eqb typed (lit "s") || str_eqb typed (lit "S").

Definition BATCH_SIZE : Z := 30000.

(** The [try] block of [main]. *)
Definition pipeline (file : list read_event) : M unit :=
  connect_db ;;
  create_table ;;
  load_data file ;;
  create_indexes ;;
  optimize_database ;;
  verify_data.

Definition main (p : process) : M unit :=
  if negb (file_exists p) then ret tt
  else
    modify (set_batch_size BATCH_SIZE) ;;
    modify (set_total_records 0) ;;
    modify (set_encoding (Some (detect_encoding (content p)))) ;;
    available_memory <- check_memory (available p) ;;
    if Qltb available_memory (1 # 2) then ret tt
    else if negb (confirmed (answer p)) then ret tt
    else guarded (pipeline (padron p)).

(** ** Statements of the specification *)

(** The name value of [r] is the cleaned join of the raw name and the
    fields from index 15 on. *)
Definition overflow_joined_into_name (line : str) (r : record) : Prop :=
  let fields := split PIPE (strip line) in
  nth_error r 1 =
    Some (clean_value (nth 1 fields [] ++ [SPACE]
                       ++ join [SPACE] (skipn 15 fields))).

(** Null exactly for a trimmed value that is empty or a lone dash. *)
Definition null_iff_trimmed_blank_or_dash (v : str) : Prop :=
  clean_value v = None <-> (strip v = [] \/ strip v = [DASH]).

(** Cleaning an output again returns it. *)
Definition clean_value_idempotent_at (v : str) : Prop :=
  forall o, clean_value v = Some o -> clean_value o = Some o.

(** [old] starts at no position of [s]. *)
Fixpoint free (old s : str) : Prop :=
  match s with
  | [] => True
  | _ :: s' => is_prefix old s = false /\ free old s'
  end.

(** [a] is nowhere followed by [b] in [s]. *)
Fixpoint nopair (a b : char) (s : str) : Prop :=
  match s with
  | [] => True
  | x :: s' =>
      match s' with
      | y :: _ => ~ (x = a /\ y = b)
      | [] => True
      end /\ nopair a b s'
  end.

(** No key of the replacement table can start in [s]: every key contains
    U+00C3 or U+00C2, or starts with U+00E2 U+20AC. *)
Definition mojibake_free (s : str) : Prop :=
  ~ In 195%N s /\ ~ In 194%N s /\ nopair 226%N 8364%N s.

(** ** Outcomes of a computation *)

(** Run from [w], [m] returns a value and a state in [Q] or raises with a
    state in [E]. *)
Definition post {A} (m : M A) (w : world)
    (Q : A -> world -> Prop) (E : raised -> world -> Prop) : Prop :=
  match m w with
  | (Return a, w') => Q a w'
  | (Raise e, w') => E e w'
  end.

(** The table after the given rows are inserted in order. *)
Definition insert_all (rows : list record) (t : table) : table :=
  fold_left (fun t r => insert_or_replace r t) rows t.

(** The records of a batch whose own statement succeeds when the batch is
    inserted one by one against the outcomes [env]. *)
Fixpoint succeeded (batch : list record) (env : list stmt_outcome)
  : list record :=
  match batch, env with
  | [], _ => []
  | _, [] => batch
  | r :: rest, StmtOk :: env' => r :: succeeded rest env'
  | _ :: rest, _ :: env' => succeeded rest env'
  end.

Definition no_interrupt (env : list stmt_outcome) : Prop :=
  Forall (fun o => o <> StmtInterrupt) env.

Definition all_ok (env : list stmt_outcome) : Prop :=
  Forall (fun o => o = StmtOk) env.

(** No interruption is to come, and nothing but a statement of a batch
    can fail: the commit and the count query succeed and the clock has
    moved when the summary is printed. *)
Definition only_inserts_fail (w : world) : Prop :=
  no_interrupt (stmt_env w) /\ commit_env w = StmtOk /\
  Qeq_bool (elapsed_env w) 0 = false /\ count_env w = StmtOk.

(** The rows of [t] whose [ruc] is [k]. *)
Definition rows_with_ruc (k : str) (t : table) : list record :=
  filter (has_ruc k) t.

(** What parsing keeps of the data lines, in file order. *)
Fixpoint parsed_records (lines : list str) : list record :=
  match lines with
  | [] => []
  | l :: rest =>
      match parse_line l with
      | Some r => r :: parsed_records rest
      | None => parsed_records rest
      end
  end.

(** The last record with [ruc] equal to [k], if any. *)
Definition last_with_ruc (k : str) (rows : list record) : option record :=
  find (has_ruc k) (rev rows).

(** [m] keeps the invariant [I] however it ends, and raises only what [X]
    allows. *)
Definition keeps (I : world -> Prop) (X : raised -> Prop) {A} (m : M A)
  : Prop :=
  forall w, I w -> post m w (fun _ => I) (fun e w' => I w' /\ X e).

Definition any_exception : raised -> Prop := fun _ => True.

(** Only [KeyboardInterrupt], and only if [X] allows it. *)
Definition interrupt_only (X : raised -> Prop) : raised -> Prop :=
  fun e => e = KeyboardInterrupt /\ X KeyboardInterrupt.

(** What reading [file] can raise, besides what [X] allows. *)
Definition read_faults (X : raised -> Prop) (file : list read_event)
  : raised -> Prop :=
  fun e =>
    match e with
    | KeyboardInterrupt => X KeyboardInterrupt \/ In Interrupted file
    | Error => In ReadError file
    end.

(** Each non-null [ruc] labels at most one row. *)
Definition unique_ruc (t : table) : Prop :=
  forall k, (length (rows_with_ruc k t) <= 1)%nat.

(** The ways [load_data] ends, in terms of a state [w2] of its transaction
    that satisfies [I]: it returns after the commit of [w2]; or it is
    interrupted and leaves the transaction open; or it fails before the
    commit and rolls back; or, for a file without data lines, it fails in
    the summary after a commit that had nothing to write. *)
Definition load_returns (I : world -> Prop) : unit -> world -> Prop :=
  fun _ w' => exists w2, I w2 /\ conn w' = conn_commit (conn w2).

Definition load_raises (I : world -> Prop) (X : raised -> Prop)
    (file : list read_event) (w : world) : raised -> world -> Prop :=
  fun e w' =>
    exists w2, I w2 /\
      match e with
      | KeyboardInterrupt =>
          conn w' = conn w2 /\
          (X KeyboardInterrupt \/ In Interrupted file
           \/ commit_env w2 = StmtInterrupt)
      | Error =>
          (conn w' = conn_rollback (conn w2) /\
           (In ReadError file \/ commit_env w2 = StmtError))
          \/
          (conn w' = conn_rollback (conn_commit (conn w2)) /\
           conn w2 = conn_write (committed (conn w)) (conn w) /\
           tl file = [])
      end.

(** The records of the batch whose own statement fails. *)
Fixpoint failed (batch : list record) (env : list stmt_outcome)
  : list record :=
  match batch, env with
  | [], _ => []
  | _, [] => []
  | _ :: rest, StmtOk :: env' => failed rest env'
  | r :: rest, _ :: env' => r :: failed rest env'
  end.

(** The non-null identifiers of the records, in order. *)
Definition identifiers (rows : list record) : list str :=
  flat_map (fun r => match ruc r with Some k => [k] | None => [] end) rows.

Definition is_progress (p : printed) : Prop :=
  match p with
  | Progress _ _ _ => True
  | _ => False
  end.

(** The state of a load after the data lines [done], every statement so
    far having succeeded: the rows written and the rows still in the
    batch amount to the records parsed from [done] inserted in order into
    [t0]; the counters agree with [done]; only progress was printed. *)
Definition loaded (w0 : world) (t0 : table) (done : list str) (w : world)
  : Prop :=
  all_ok (stmt_env w) /\
  commit_env w = commit_env w0 /\
  committed (conn w) = committed (conn w0) /\
  insert_all (batch_records w) (working (conn w))
  = insert_all (parsed_records done) t0 /\
  total_records w + len (batch_records w)
  = total_records w0 + len (parsed_records done) /\
  lines_processed w = len done /\
  error_count w = len done - len (parsed_records done) /\
  exists ps, stdout w = stdout w0 ++ ps /\ Forall is_progress ps.

(** The figures of the final summary, as printed. *)
Definition summary (total_lines records errors db_count : Z) : list printed :=
  [TotalLines total_lines; RecordsInserted records; ErrorLines errors;
   DbCount db_count].

(** The rows the fallback messages of a run report as not inserted. *)
Fixpoint failed_rows (out : list printed) : Z :=
  match out with
  | [] => 0
  | BatchInserted success_count batch_len :: out' =>
      (batch_len - success_count) + failed_rows out'
  | _ :: out' => failed_rows out'
  end.

(** What no statement of the cursor touches. *)
Definition frame (w : world) :=
  (batch_size w, batch_records w, lines_processed w, batch_count w,
   error_count w, commit_env w, stdout w, encoding w).

(** The lines [parse_line] rejects. *)
Definition parse_errors (lines : list str) : Z :=
  len lines - len (parsed_records lines).

(** The count of the table after the run is the number of data lines
    less the parse errors less the rows reported as failed, and it is the
    figure printed as records inserted. *)
Definition count_as_claimed (lines : list str) (w w' : world) : Prop :=
  exists out,
    stdout w' = stdout w ++ out /\
    len (committed (conn w'))
    = len lines - parse_errors lines - failed_rows out /\
    In (RecordsInserted (len (committed (conn w')))) out.

(** Two readings of the same bytes agree on the ASCII characters: [t]
    stops at an error or follows [t'] character by character, except that
    one character above U+007F of [t] may stand for several of [t']. *)
Inductive similar : text -> text -> Prop :=
| similar_eof : similar Eof Eof
| similar_error t' : similar DecodeError t'
| similar_ascii c t t' :
    (c < 128)%N -> similar t t' -> similar (Chr c t) (Chr c t')
| similar_high c d t t' :
    (128 <= c)%N -> (128 <= d)%N -> similar t t' ->
    similar (Chr c t) (Chr d t')
| similar_high_more c d t t' :
    (128 <= c)%N -> (128 <= d)%N -> similar (Chr c t) t' ->
    similar (Chr c t) (Chr d t').

(** ** Sample inputs *)

Definition sixteen_fields_with_name : str :=
  lit "20100|ACME|ACTIVO|HABIDO|150101|AV|LIMA|Z1|T1|100|-|-|-|-|-| SA".

Definition sixteen_fields_without_name : str :=
  lit "20100||ACTIVO|HABIDO|150101|AV|LIMA|Z1|T1|100|-|-|-|-|-|ACME SA".

Definition low_memory_process : process :=
  {| file_exists := true;
     content := [];
     available := 805306368;
     answer := lit "s";
     padron := [Line (lit "RUC|NOMBRE"); Line (lit "20100|ACME SA")] |}.

Definition fresh_world : world :=
  {| encoding := None; batch_size := 0; total_records := 0;
     conn := {| committed := []; pending := None |};
     batch_records := []; lines_processed := 0; batch_count := 0;
     error_count := 0; stmt_env := []; commit_env := StmtOk;
     count_env := StmtOk; elapsed_env := 1%Q; stdout := [] |}.

Definition acme : record :=
  Eval vm_compute in
    match parse_line (lit "20100|ACME SA|ACTIVO") with
    | Some r => r
    | None => []
    end.

Definition beta : record :=
  Eval vm_compute in
    match parse_line (lit "20200|BETA SAC|BAJA") with
    | Some r => r
    | None => []
    end.

(** The second statement of the batch fails, then the first of the
    retries. *)
Definition flaky_world : world :=
  {| encoding := None; batch_size := 2; total_records := 0;
     conn := {| committed := []; pending := None |};
     batch_records := []; lines_processed := 0; batch_count := 0;
     error_count := 0;
     stmt_env := [StmtOk; StmtError; StmtError; StmtOk];
     commit_env := StmtOk; count_env := StmtOk; elapsed_env := 1%Q;
     stdout := [] |}.

Definition flaky_world_after_bulk : world :=
  Eval vm_compute in snd (executemany [acme; beta] flaky_world).

Definition padron_with_repeat : list str :=
  [lit "20100|ACME SA|ACTIVO"; lit "20200|BETA SAC|BAJA";
   lit "20100|ACME SAC|BAJA"].

Definition acme_later : record :=
  Eval vm_compute in
    match parse_line (lit "20100|ACME SAC|BAJA") with
    | Some r => r
    | None => []
    end.

Definition converter_world (env : list stmt_outcome) : world :=
  {| encoding := Some Latin1; batch_size := 30000; total_records := 0;
     conn := {| committed := []; pending := None |};
     batch_records := []; lines_processed := 0; batch_count := 0;
     error_count := 0; stmt_env := env; commit_env := StmtOk;
     count_env := StmtOk; elapsed_env := 1%Q;
     stdout := [] |}.

(** The converter on a clock too coarse for the run: the two readings of
    [time.time()] are equal. *)
Definition instant_world : world :=
  {| encoding := Some Latin1; batch_size := 30000; total_records := 0;
     conn := {| committed := []; pending := None |};
     batch_records := []; lines_processed := 0; batch_count := 0;
     error_count := 0; stmt_env := []; commit_env := StmtOk;
     count_env := StmtOk; elapsed_env := 0%Q;
     stdout := [] |}.

Definition two_taxpayers : list str :=
  [lit "20100|ACME SA|ACTIVO"; lit "20200|BETA SAC|BAJA"].

Definition world_after_two_taxpayers : world :=
  Eval vm_compute in
    snd (load_data (map Line (lit "RUC|NOMBRE|ESTADO" :: two_taxpayers))
                   (converter_world [])).

Definition same_ruc_twice : list str :=
  [lit "20100|ACME SA|ACTIVO"; lit "20100|ACME SAC|BAJA"].

Definition world_after_same_ruc_twice : world :=
  Eval vm_compute in
    snd (load_data (map Line (lit "RUC|NOMBRE|ESTADO" :: same_ruc_twice))
                   (converter_world [])).

Definition world_after_failed_row : world :=
  Eval vm_compute in
    snd (load_data (map Line [lit "RUC|NOMBRE|ESTADO";
                              lit "20100|ACME SA|ACTIVO"])
                   (converter_world [StmtError; StmtError])).

(** Both tables of the connection have unique identifiers. *)
Definition unique_tables (w : world) : Prop :=
  unique_ruc (committed (conn w)) /\ unique_ruc (working (conn w)).

(** ** Further definitions *)

(** A line of whitespace only. *)
Definition blank (line : str) : bool := forallb isspace line.

(** The value shown for a column by the sample of [verify_data]: the text,
    cut after fifty characters, or NULL for a null or empty value. *)
Definition display_val (val : value) : str :=
  match val with
  | Some (c :: s) =>
      let display_val := c :: s in
      if (50 <? length display_val)%nat
      then firstn 50 display_val ++ lit "..."
      else display_val
  | _ => lit "NULL"
  end.

Definition fifteen_fields : str :=
  lit "20100|ACME SA|ACTIVO|HABIDO|150101|AV|LIMA|Z1|T1|100|-|-|-|-|-".

(** The variables of the converter and of [load_data] that no statement
    and no output touches. *)
Definition locals (w : world) :=
  (batch_size w, batch_records w, lines_processed w, batch_count w,
   error_count w, total_records w).

(** The counters of a load after the data lines [done], whatever the
    statements did: started from [w0], with an empty batch when the batch
    size is positive. *)
Definition tracked (w0 : world) (done : list str) (w : world) : Prop :=
  batch_size w = batch_size w0 /\
  lines_processed w = lines_processed w0 + len done /\
  error_count w = error_count w0 + parse_errors done /\
  total_records w + len (batch_records w)
  = total_records w0 + len (batch_records w0) + len (parsed_records done) /\
  (0 < batch_size w0 ->
   len (batch_records w0) < batch_size w0 ->
   len (batch_records w) < batch_size w0 /\
   total_records w - total_records w0
   = batch_size w0 * (batch_count w - batch_count w0)).

(** The data lines [parse_line] rejects. *)
Definition blank_lines (lines : list str) : Z := len (filter blank lines).

(** The end of the output of a load that returns: the four figures and,
    when the record counter differs from the count of the table, the
    warning. *)
Definition final_report (w' : world) (total_lines errors : Z)
  : list printed :=
  let db_count := len (committed (conn w')) in
  summary total_lines (total_records w') errors db_count
  ++ (if total_records w' =? db_count then []
      else [Difference (Z.abs (total_records w' - db_count))]).

(** What [load_data] leaves in the counters when it returns from a file
    with the data lines [lines], started from [w]. *)
Definition counted (lines : list str) (w w' : world) : Prop :=
  lines_processed w' = len lines /\
  lines_processed w' <> 0 /\
  error_count w' = parse_errors lines /\
  total_records w' = total_records w + len (parsed_records lines) /\
  batch_size w' = batch_size w /\
  (0 < batch_size w ->
   len (batch_records w') < batch_size w /\
   len (parsed_records lines)
   = batch_size w * batch_count w' + len (batch_records w')) /\
  exists pre,
    stdout w' = pre ++ final_report w' (len lines) (parse_errors lines).

(** A load of three records in batches of two, the second and third
    statements failing. *)
Definition flaky_world_after_load : world :=
  Eval vm_compute in
    snd (load_data (map Line (lit "RUC|NOMBRE|ESTADO" :: padron_with_repeat))
                   flaky_world).

(** A process with 4 GiB free whose user confirms, and one whose user
    declines. *)
Definition ample_memory_process : process :=
  {| file_exists := true;
     content := [];
     available := 4294967296;
     answer := lit "S";
     padron := [Line (lit "RUC|NOMBRE"); Line (lit "20100|ACME SA")] |}.

Definition declined_process : process :=
  {| file_exists := true;
     content := [];
     available := 4294967296;
     answer := lit "si";
     padron := [Line (lit "RUC|NOMBRE"); Line (lit "20100|ACME SA")] |}.

(** A database that already holds a row. *)
Definition used_world : world :=
  {| encoding := None; batch_size := 0; total_records := 7;
     conn := {| committed := [beta]; pending := None |};
     batch_records := []; lines_processed := 0; batch_count := 0;
     error_count := 0; stmt_env := []; commit_env := StmtOk;
     count_env := StmtOk; elapsed_env := 1%Q; stdout := [] |}.

(** A record without identifier. *)
Definition no_ruc (r : record) : bool :=
  match ruc r with
  | Some _ => false
  | None => true
  end.

Definition str_eq_dec : forall a b : str, {a = b} + {a <> b} :=
  list_eq_dec N.eq_dec.

(** The identifiers of the rows, each once. *)
Definition distinct_identifiers (rows : list record) : list str :=
  nodup str_eq_dec (identifiers rows).

(** Two lines without identifier and one identifier on two lines. *)
Definition padron_without_ruc : list str :=
  [lit "|SIN RUC SA|ACTIVO"; lit "20100|ACME SA|ACTIVO";
   lit "-|OTRA SIN RUC|BAJA"; lit "20100|ACME SAC|BAJA"].

(** Every row of the database, inside and outside the transaction, and
    every record of the current batch satisfies [P]. *)
Definition rows_satisfy (P : record -> Prop) (w : world) : Prop :=
  Forall P (committed (conn w)) /\
  Forall P (working (conn w)) /\
  Forall P (batch_records w).

(** [r] is what [parse_line] gives for a line the file yields after its
    first. *)
Definition parsed_from (file : list read_event) (r : record) : Prop :=
  exists line, In (Line line) (tl file) /\ parse_line line = Some r.

(** A field that can stand between two delimiters. *)
Definition no_pipe (field : str) : bool :=
  negb (existsb (char_eqb PIPE) field).

Definition fifteen_values : list str :=
  [lit "20100"; lit "ACME SA"; lit "ACTIVO"; lit "HABIDO"; lit "150101";
   lit " AV "; lit "LIMA"; lit "Z1"; lit "T1"; lit "100"; lit "-"; lit "";
   lit " - "; lit "  "; lit "KM 5"].

(** A file whose second data line cannot be read. *)
Definition padron_cut_short : list read_event :=
  [Line (lit "RUC|NOMBRE|ESTADO"); Line (lit "20100|ACME SA|ACTIVO");
   ReadError].

(** * Properties *)

(** ** Strings *)

Lemma str_eqb_spec a b : reflect (a = b) (str_eqb a b).
Proof.
  revert b; induction a as [|x a IH]; intros [|y b]; simpl;
    try (constructor; congruence).
  unfold char_eqb. destruct (N.eqb_spec x y) as [->|Hxy]; simpl.
  - destruct (IH b) as [->|Hab]; constructor; congruence.
  - constructor; congruence.
Qed.

Lemma str_eqb_refl a : str_eqb a a = true.
Proof. destruct (str_eqb_spec a a); congruence. Qed.

Lemma isspace_PIPE : isspace PIPE = false.
Proof. reflexivity. Qed.

Section Counting.

Variable c : char.
Hypothesis c_not_space : isspace c = false.

Lemma occurrences_lstrip s : count_occ N.eq_dec (lstrip s) c = count_occ N.eq_dec s c.
Proof.
  induction s as [|x s IH]; simpl; [reflexivity|].
  destruct (isspace x) eqn:Hx; [|reflexivity].
  rewrite IH. destruct (N.eq_dec x c) as [->|]; congruence.
Qed.

Lemma occurrences_rev s : count_occ N.eq_dec (rev s) c = count_occ N.eq_dec s c.
Proof.
  induction s as [|x s IH]; simpl; [reflexivity|].
  rewrite count_occ_app, IH. simpl.
  destruct (N.eq_dec x c); lia.
Qed.

Lemma occurrences_strip s : count_occ N.eq_dec (strip s) c = count_occ N.eq_dec s c.
Proof.
  unfold strip, rstrip.
  now rewrite occurrences_rev, occurrences_lstrip, occurrences_rev,
    occurrences_lstrip.
Qed.

Lemma split_length s : length (split c s) = S (count_occ N.eq_dec s c).
Proof.
  induction s as [|x s IH]; simpl; [reflexivity|].
  unfold char_eqb. destruct (N.eqb_spec x c) as [->|Hx].
  - simpl. rewrite IH. destruct (N.eq_dec c c); congruence.
  - destruct (split c s) as [|f fs] eqn:Hs; simpl in *; [discriminate|].
    destruct (N.eq_dec x c); congruence.
Qed.

(** Stripping the line does not change the number of fields. *)
Lemma split_strip_length s :
  length (split c (strip s)) = length (split c s).
Proof. now rewrite !split_length, occurrences_strip. Qed.

End Counting.

Lemma set_nth_length {A} i (x : A) l : length (set_nth i x l) = length l.
Proof.
  unfold set_nth. destruct (nth_error l i) eqn:Hi; [|reflexivity].
  assert (i < length l)%nat by (apply nth_error_Some; congruence).
  rewrite length_app, length_firstn. cbn [length].
  rewrite length_skipn. lia.
Qed.

Lemma set_nth_same {A} i (x : A) l :
  (i < length l)%nat -> nth_error (set_nth i x l) i = Some x.
Proof.
  intros Hi. unfold set_nth.
  destruct (nth_error l i) eqn:E; [|apply nth_error_None in E; lia].
  rewrite nth_error_app2; rewrite length_firstn; [|lia].
  replace (i - Nat.min i (length l))%nat with 0%nat by lia. reflexivity.
Qed.

Lemma set_nth_other {A} i j (x : A) l :
  i <> j -> nth_error (set_nth i x l) j = nth_error l j.
Proof.
  intros Hij. unfold set_nth.
  destruct (nth_error l i) eqn:E; [|reflexivity].
  assert (Hi : (i < length l)%nat) by (apply nth_error_Some; congruence).
  destruct (Nat.lt_ge_cases j i) as [Hlt|Hge].
  - rewrite nth_error_app1 by (rewrite length_firstn; lia).
    rewrite nth_error_firstn.
    destruct (Nat.ltb_spec j i); [reflexivity|lia].
  - rewrite nth_error_app2 by (rewrite length_firstn; lia).
    rewrite length_firstn.
    replace (j - Nat.min i (length l))%nat with (S (j - S i)) by lia.
    cbn [nth_error]. rewrite nth_error_skipn. f_equal. lia.
Qed.

Lemma normalize_fields_length fields :
  length (normalize_fields fields) = 15%nat.
Proof.
  unfold normalize_fields.
  destruct (Nat.ltb_spec (length fields) 15).
  - rewrite length_app, length_map, repeat_length. lia.
  - destruct (Nat.ltb_spec 15 (length fields)).
    + destruct (_ && _); rewrite length_map, ?set_nth_length, length_firstn; lia.
    + rewrite length_map. lia.
Qed.

Lemma parse_line_some line :
  strip line <> [] ->
  parse_line line =
    Some (map clean_opt (normalize_fields (split PIPE (strip line)))).
Proof.
  unfold parse_line. destruct (strip line); [congruence|reflexivity].
Qed.

Lemma parse_line_length line r :
  parse_line line = Some r -> length r = 15%nat.
Proof.
  unfold parse_line. destruct (strip line); [discriminate|].
  intros [= <-]. now rewrite length_map, normalize_fields_length.
Qed.

Lemma parse_line_none line : parse_line line = None <-> strip line = [].
Proof.
  unfold parse_line. destruct (strip line); split; congruence.
Qed.

(** ** [parse_line] *)

Lemma nth_error_clean_fields (values : list value) i v :
  nth_error values i = Some v ->
  nth_error (map clean_opt values) i = Some (clean_opt v).
Proof. intros H. now rewrite nth_error_map, H. Qed.

(** C4: a non-blank line with fewer than fifteen fields parses to a record
    of exactly fifteen values; the values at the missing trailing positions
    are null and the others are the cleaned fields. *)
Theorem parse_line_pads_missing_fields (line : str) (n : nat) :
  strip line <> [] ->
  length (split PIPE line) = n ->
  (n < 15)%nat ->
  exists r,
    parse_line line = Some r /\
    length r = 15%nat /\
    (forall i, (n <= i < 15)%nat -> nth_error r i = Some None) /\
    (forall i, (i < n)%nat ->
       nth_error r i = Some (clean_value (nth i (split PIPE (strip line)) []))).
Proof.
  intros Hline Hn Hlt.
  rewrite <- (@split_strip_length PIPE isspace_PIPE) in Hn.
  set (fields := split PIPE (strip line)) in *.
  exists (map clean_opt (normalize_fields fields)).
  split; [now apply parse_line_some|].
  split; [now rewrite length_map, normalize_fields_length|].
  unfold normalize_fields.
  destruct (Nat.ltb_spec (length fields) 15) as [_|]; [|lia].
  split; intros i Hi.
  - apply nth_error_clean_fields with (v := None).
    rewrite nth_error_app2 by (rewrite length_map; lia).
    rewrite nth_error_repeat; [reflexivity|rewrite length_map; lia].
  - apply nth_error_clean_fields with (v := Some (nth i fields [])).
    rewrite nth_error_app1 by (rewrite length_map; lia).
    rewrite nth_error_map, (nth_error_nth' fields []) by lia. reflexivity.
Qed.

Lemma parse_line_pads_missing_fields_witness :
  exists r,
    parse_line (lit " 20100|ACME SA|ACTIVO ") = Some r /\
    length r = 15%nat /\
    (forall i, (3 <= i < 15)%nat -> nth_error r i = Some None) /\
    (forall i, (i < 3)%nat ->
       nth_error r i =
         Some (clean_value
                 (nth i (split PIPE (strip (lit " 20100|ACME SA|ACTIVO "))) []))).
Proof.
  apply (@parse_line_pads_missing_fields (lit " 20100|ACME SA|ACTIVO ") 3).
  - vm_compute. discriminate.
  - reflexivity.
  - lia.
Defined.

(** C3, as the code has it: a non-blank line with more than fifteen fields
    parses to a record of exactly fifteen values; when the raw name field
    is not empty the name value is the cleaned join, with single spaces, of
    the raw name and the fields from index 15 on in their order, and when
    the raw name field is empty the overflow is dropped and the name is
    null; every other value is the cleaned field of its position. *)
Theorem parse_line_merges_overflow_into_name (line : str) :
  strip line <> [] ->
  (15 < length (split PIPE line))%nat ->
  exists r,
    parse_line line = Some r /\
    length r = 15%nat /\
    (nth 1 (split PIPE (strip line)) [] <> [] ->
       overflow_joined_into_name line r) /\
    (nth 1 (split PIPE (strip line)) [] = [] -> nth_error r 1 = Some None) /\
    (forall i, (i < 15)%nat -> i <> 1%nat ->
       nth_error r i = Some (clean_value (nth i (split PIPE (strip line)) []))).
Proof.
  intros Hline Hgt.
  rewrite <- (@split_strip_length PIPE isspace_PIPE) in Hgt.
  unfold overflow_joined_into_name.
  set (fields := split PIPE (strip line)) in *.
  exists (map clean_opt (normalize_fields fields)).
  split; [now apply parse_line_some|].
  split; [now rewrite length_map, normalize_fields_length|].
  assert (Hfirst : forall i, (i < 15)%nat ->
            nth_error (firstn 15 fields) i = Some (nth i fields [])).
  { intros i Hi. rewrite nth_error_firstn.
    destruct (Nat.ltb_spec i 15); [|lia]. apply nth_error_nth'. lia. }
  assert (Hname : nth 1 (firstn 15 fields) [] = nth 1 fields []).
  { apply nth_error_nth. apply Hfirst. lia. }
  assert (Hextra : nonempty (skipn 15 fields) = true).
  { destruct (skipn 15 fields) eqn:E; [|reflexivity].
    apply (f_equal (@length _)) in E. rewrite length_skipn in E.
    simpl in E. lia. }
  unfold normalize_fields.
  destruct (Nat.ltb_spec (length fields) 15) as [|_]; [lia|].
  destruct (Nat.ltb_spec 15 (length fields)) as [_|]; [|lia].
  rewrite Hextra, Hname. cbn [andb].
  destruct (nth 1 fields []) as [|c name] eqn:En; cbn [nonempty].
  - split; [congruence|]. split.
    + intros _. apply nth_error_clean_fields with (v := Some []).
      rewrite nth_error_map. rewrite Hfirst by lia. rewrite En. reflexivity.
    + intros i Hi _.
      apply nth_error_clean_fields with (v := Some (nth i fields [])).
      rewrite nth_error_map. rewrite Hfirst by lia. reflexivity.
  - split.
    + intros _.
      apply nth_error_clean_fields
        with (v := Some ((c :: name) ++ [SPACE]
                         ++ join [SPACE] (skipn 15 fields))).
      rewrite nth_error_map, set_nth_same; [reflexivity|].
      rewrite length_firstn; lia.
    + split; [discriminate|].
      intros i Hi Hi1.
      apply nth_error_clean_fields with (v := Some (nth i fields [])).
      rewrite nth_error_map. rewrite set_nth_other by auto.
      rewrite Hfirst by lia. reflexivity.
Qed.

Lemma parse_line_merges_overflow_into_name_witness :
  exists r,
    parse_line sixteen_fields_with_name = Some r /\
    length r = 15%nat /\
    (nth 1 (split PIPE (strip sixteen_fields_with_name)) [] <> [] ->
       overflow_joined_into_name sixteen_fields_with_name r) /\
    (nth 1 (split PIPE (strip sixteen_fields_with_name)) [] = [] ->
       nth_error r 1 = Some None) /\
    (forall i, (i < 15)%nat -> i <> 1%nat ->
       nth_error r i =
         Some (clean_value
                 (nth i (split PIPE (strip sixteen_fields_with_name)) []))).
Proof.
  apply (parse_line_merges_overflow_into_name sixteen_fields_with_name).
  - vm_compute. discriminate.
  - vm_compute. lia.
Defined.

(** C3 as stated fails on a line of sixteen fields whose name field is
    empty: the record has a null name and the sixteenth field is lost. *)
Lemma overflow_dropped_when_name_empty :
  strip sixteen_fields_without_name <> [] /\
  (15 < length (split PIPE sixteen_fields_without_name))%nat /\
  exists r,
    parse_line sixteen_fields_without_name = Some r /\
    nth_error r 1 = Some None /\
    ~ overflow_joined_into_name sixteen_fields_without_name r.
Proof.
  split; [vm_compute; discriminate|].
  split; [vm_compute; lia|].
  eexists. split; [vm_compute; reflexivity|].
  split; [reflexivity|].
  vm_compute. discriminate.
Qed.

(** ** [str.replace] *)

Lemma is_prefix_In old s c :
  is_prefix old s = true -> In c old -> In c s.
Proof.
  revert s; induction old as [|x old IH]; intros [|y s]; simpl;
    try easy.
  unfold char_eqb. destruct (N.eqb_spec x y) as [->|]; simpl; [|easy].
  intros Hp [->|Hin]; auto.
Qed.

Lemma free_absent_char old s c : In c old -> ~ In c s -> free old s.
Proof.
  intros Hc. induction s as [|x s IH]; simpl; [easy|].
  intros Hn. split.
  - destruct (is_prefix old (x :: s)) eqn:E; [|reflexivity].
    exfalso. apply Hn. now apply (is_prefix_In old (x :: s) c E).
  - apply IH. tauto.
Qed.

Lemma free_nopair a b rest s : nopair a b s -> free (a :: b :: rest) s.
Proof.
  induction s as [|x s IH]; simpl; [easy|].
  intros [Hhead Htail]. split; [|now apply IH].
  unfold char_eqb. destruct (N.eqb_spec a x) as [<-|]; simpl; [|reflexivity].
  destruct s as [|y s]; [reflexivity|].
  destruct (N.eqb_spec b y) as [<-|]; simpl; [|reflexivity].
  exfalso. now apply Hhead.
Qed.

Lemma replace_free old new s : free old s -> replace old new s = s.
Proof.
  unfold replace. induction s as [|x s IH]; simpl; [reflexivity|].
  intros [Hp Hs]. simpl in Hp. rewrite Hp. f_equal. now apply IH.
Qed.

Lemma In_replace_from old new k s c :
  In c (replace_from old new k s) -> In c s \/ In c new.
Proof.
  revert k; induction s as [|x s IH]; intros k; simpl; [easy|].
  destruct k as [|k].
  - destruct (is_prefix old (x :: s)).
    + rewrite in_app_iff. intros [H|H]; [now right|].
      apply IH in H. tauto.
    + simpl. intros [H|H]; [tauto|]. apply IH in H. tauto.
  - intros H. apply IH in H. tauto.
Qed.

Lemma absent_replace c old new s :
  ~ In c new -> ~ In c s -> ~ In c (replace old new s).
Proof.
  intros Hn Hs H. apply In_replace_from in H. tauto.
Qed.

Lemma replace_char_absent c new s :
  ~ In c new -> ~ In c (replace [c] new s).
Proof.
  intros Hn. unfold replace.
  induction s as [|x s IH]; simpl; [easy|].
  unfold char_eqb. destruct (N.eqb_spec c x) as [<-|Hx]; simpl.
  - rewrite in_app_iff. tauto.
  - intros [H|H]; [congruence|tauto].
Qed.

Lemma replace_pair_nopair a b q s :
  q <> a -> q <> b -> nopair a b (replace [a; b] [q] s).
Proof.
  intros Hqa Hqb. unfold replace.
  assert (H : nopair a b (replace_from [a; b] [q] 0 s) /\
              nopair a b (replace_from [a; b] [q] 1 s) /\
              (forall t, replace_from [a; b] [q] 0 s = b :: t ->
                         exists t', s = b :: t')); [|tauto].
  induction s as [|x s (IH0 & IH1 & IHh)]; [simpl; intuition discriminate|].
  split; [|split].
  - cbn [replace_from length Nat.sub].
    destruct (is_prefix [a; b] (x :: s)) eqn:E.
    + cbn [app nopair]. split; [|exact IH1].
      destruct (replace_from [a; b] [q] 1 s); [exact I|]. tauto.
    + cbn [nopair]. split; [|exact IH0].
      destruct (replace_from [a; b] [q] 0 s) as [|y t] eqn:Er; [exact I|].
      intros [-> ->]. destruct (IHh t eq_refl) as [t' ->].
      simpl in E. unfold char_eqb in E. now rewrite !N.eqb_refl in E.
  - exact IH0.
  - intros t. cbn [replace_from length Nat.sub].
    destruct (is_prefix [a; b] (x :: s)).
    + cbn [app]. intros [= -> _]. congruence.
    + intros [= -> _]. now exists s.
Qed.

(** ** The replacement pass *)

Lemma apply_replacements_mojibake_free s : mojibake_free (apply_replacements s).
Proof.
  unfold apply_replacements, replacements. cbn [fold_left fst snd].
  match goal with
  | |- context [replace [195%N] [209%N] ?x] =>
      set (s7 := replace [195%N] [209%N] x)
  end.
  assert (H7 : ~ In 195%N s7) by (apply replace_char_absent; simpl; lia).
  set (s8 := replace [194%N] [] s7).
  assert (H8 : ~ In 194%N s8) by (apply replace_char_absent; simpl; tauto).
  assert (H8' : ~ In 195%N s8) by (apply absent_replace; simpl; tauto).
  match goal with
  | |- context [replace [226%N; 8364%N] [34%N] ?x] =>
      set (s11 := replace [226%N; 8364%N] [34%N] x)
  end.
  assert (H11 : nopair 226%N 8364%N s11)
    by (apply replace_pair_nopair; lia).
  assert (A195 : ~ In 195%N s11)
    by (do 3 (apply absent_replace; [simpl; lia|]); exact H8').
  assert (A194 : ~ In 194%N s11)
    by (do 3 (apply absent_replace; [simpl; lia|]); exact H8).
  rewrite (@replace_free _ _ s11) by now apply free_nopair.
  rewrite (@replace_free _ _ s11) by now apply free_nopair.
  now repeat split.
Qed.

Lemma apply_replacements_fixed s : mojibake_free s -> apply_replacements s = s.
Proof.
  intros (H195 & H194 & Hpair).
  unfold apply_replacements, replacements. cbn [fold_left fst snd].
  repeat
    (first
       [ rewrite (@replace_free (195%N :: _) _ s)
           by (apply free_absent_char with (c := 195%N); simpl; tauto)
       | rewrite (@replace_free (194%N :: _) _ s)
           by (apply free_absent_char with (c := 194%N); simpl; tauto)
       | rewrite (@replace_free (226%N :: _) _ s)
           by now apply free_nopair ]).
  reflexivity.
Qed.

(** The substitution rules are idempotent as a pass. *)
Lemma apply_replacements_idempotent s :
  apply_replacements (apply_replacements s) = apply_replacements s.
Proof. apply apply_replacements_fixed, apply_replacements_mojibake_free. Qed.

(** ** [str.strip] keeps a contiguous part of the string *)

Lemma lstrip_suffix s : exists p, s = p ++ lstrip s.
Proof.
  induction s as [|x s [p IH]]; simpl; [now exists []|].
  destruct (isspace x).
  - exists (x :: p). simpl. now f_equal.
  - now exists [].
Qed.

Lemma rstrip_prefix s : exists q, s = rstrip s ++ q.
Proof.
  unfold rstrip. destruct (lstrip_suffix (rev s)) as [p Hp].
  exists (rev p). rewrite <- rev_app_distr, <- Hp. now rewrite rev_involutive.
Qed.

Lemma strip_infix s : exists p q, s = p ++ strip s ++ q.
Proof.
  unfold strip. destruct (lstrip_suffix s) as [p Hp].
  destruct (rstrip_prefix (lstrip s)) as [q Hq].
  exists p, q. now rewrite <- Hq.
Qed.

Lemma nopair_app a b s t : nopair a b (s ++ t) -> nopair a b s /\ nopair a b t.
Proof.
  induction s as [|x s IH]; [simpl; tauto|].
  cbn [app nopair]. intros [Hh Ht]. destruct (IH Ht) as [Hs Htt].
  repeat split; auto.
  destruct s; [exact I|exact Hh].
Qed.

Lemma mojibake_free_strip s : mojibake_free s -> mojibake_free (strip s).
Proof.
  destruct (strip_infix s) as (p & q & E).
  intros (H195 & H194 & Hp). rewrite E in H195, H194, Hp.
  rewrite !in_app_iff in H195, H194.
  apply nopair_app in Hp as [_ Hp]. apply nopair_app in Hp as [Hp _].
  unfold mojibake_free. tauto.
Qed.

(** ** [clean_value] *)

Lemma clean_value_Some v o :
  clean_value v = Some o -> o = apply_replacements (strip v).
Proof.
  unfold clean_value. destruct (_ || _); [discriminate|congruence].
Qed.

(** C5, as the code has it: cleaning yields null exactly when the value is
    empty or only whitespace, or when the value as given (not trimmed) is
    the single character '-'. *)
Theorem clean_value_null_iff (v : str) :
  clean_value v = None <-> (strip v = [] \/ v = [DASH]).
Proof.
  unfold clean_value.
  destruct (str_eqb_spec v []) as [->|Hv]; [simpl; intuition|].
  destruct (str_eqb_spec v [DASH]) as [->|Hd]; [simpl; intuition|].
  destruct (str_eqb_spec (strip v) []) as [->|Hs]; simpl;
    intuition discriminate.
Qed.

(** C5 as stated fails on a dash with a space before it: the trimmed value
    is the lone dash and the result is that dash, not null. *)
Lemma padded_dash_not_null :
  clean_value (lit " -") = Some [DASH] /\
  strip (lit " -") = [DASH] /\
  ~ null_iff_trimmed_blank_or_dash (lit " -").
Proof.
  split; [reflexivity|]. split; [reflexivity|].
  intros [_ H]. discriminate H. now right.
Qed.

(** C6, as the code has it: the substitution pass is idempotent, every
    output of cleaning is left unchanged by the pass, and cleaning an
    output [o] again returns [o] exactly when [o] is not empty, is not the
    lone dash and has no whitespace at either end. *)
Theorem clean_value_again (v o : str) :
  clean_value v = Some o ->
  apply_replacements o = o /\
  (clean_value o = Some o <-> (o <> [] /\ o <> [DASH] /\ strip o = o)).
Proof.
  intros Hv. apply clean_value_Some in Hv.
  assert (Hfree : mojibake_free o)
    by (subst o; apply apply_replacements_mojibake_free).
  split; [now apply apply_replacements_fixed|].
  unfold clean_value.
  destruct (str_eqb_spec o []) as [->|Ho]; [simpl; intuition discriminate|].
  destruct (str_eqb_spec o [DASH]) as [->|Hd]; [simpl; intuition discriminate|].
  destruct (str_eqb_spec (strip o) []) as [Es|Hs]; cbn [orb].
  - split; [discriminate|]. intros (_ & _ & E). congruence.
  - rewrite (apply_replacements_fixed (mojibake_free_strip Hfree)).
    split; [intros [= E]; auto|]. intros (_ & _ & ->). reflexivity.
Qed.

Lemma clean_value_again_witness :
  apply_replacements [65; 241; 111]%N = [65; 241; 111]%N /\
  (clean_value [65; 241; 111]%N = Some [65; 241; 111]%N <->
   ([65; 241; 111]%N <> [] /\ [65; 241; 111]%N <> [DASH] /\
    strip [65; 241; 111]%N = [65; 241; 111]%N)).
Proof.
  apply (@clean_value_again [32; 65; 195; 177; 111; 194]%N [65; 241; 111]%N).
  reflexivity.
Defined.

(** C6 as stated fails: a dash with a space before it cleans to the lone
    dash, and the lone dash cleans to null. *)
Lemma clean_value_not_idempotent :
  clean_value (lit " -") = Some [DASH] /\
  clean_value [DASH] = None /\
  ~ clean_value_idempotent_at (lit " -").
Proof.
  split; [reflexivity|]. split; [reflexivity|].
  intros H. specialize (H [DASH] eq_refl). discriminate H.
Qed.

(** ** Rules for outcomes *)

Section Rules.

Context {A B : Type}.
Variables (Q : A -> world -> Prop) (E : raised -> world -> Prop).

Lemma post_ret a w : Q a w -> post (ret a) w Q E.
Proof. exact (fun H => H). Qed.

Lemma post_raise e w : E e w -> post (@raise A e) w Q E.
Proof. exact (fun H => H). Qed.

Lemma post_get (f : world -> A) w : Q (f w) w -> post (get f) w Q E.
Proof. exact (fun H => H). Qed.

Lemma post_bind (m : M B) (k : B -> M A) w :
  post m w (fun b w' => post (k b) w' Q E) E -> post (bind m k) w Q E.
Proof.
  unfold post, bind. destruct (m w) as [[b|e] w']; exact (fun H => H).
Qed.

Lemma post_try (m handler : M A) w :
  post m w Q (fun e w' =>
                match e with
                | Error => post handler w' Q E
                | KeyboardInterrupt => E KeyboardInterrupt w'
                end) ->
  post (try_except m handler) w Q E.
Proof.
  unfold post, try_except.
  destruct (m w) as [[a|[|]] w']; exact (fun H => H).
Qed.

Lemma post_mono (Q' : A -> world -> Prop) (E' : raised -> world -> Prop)
    (m : M A) w :
  post m w Q' E' ->
  (forall a w', Q' a w' -> Q a w') ->
  (forall e w', E' e w' -> E e w') ->
  post m w Q E.
Proof.
  unfold post. destruct (m w) as [[a|e] w']; intros H HQ HE; auto.
Qed.

End Rules.

Lemma post_modify (Q : unit -> world -> Prop) E f w :
  Q tt (f w) -> post (modify f) w Q E.
Proof. exact (fun H => H). Qed.

Lemma post_when (Q : unit -> world -> Prop) E (b : bool) m w :
  (if b then post m w Q E else Q tt w) -> post (when b m) w Q E.
Proof. destruct b; exact (fun H => H). Qed.

Lemma post_print (Q : unit -> world -> Prop) E p w :
  Q tt (set_stdout (stdout w ++ [p]) w) -> post (print p) w Q E.
Proof. exact (fun H => H). Qed.

(** One step through the structure of a computation. *)
Ltac post_step :=
  lazymatch goal with
  | |- post (bind _ _) _ _ _ => apply post_bind
  | |- post (ret _) _ _ _ => apply post_ret
  | |- post (raise _) _ _ _ => apply post_raise
  | |- post (get _) _ _ _ => apply post_get
  | |- post (modify _) _ _ _ => apply post_modify
  | |- post (print _) _ _ _ => apply post_print
  | |- post (when _ _) _ _ _ => apply post_when
  | |- post (try_except _ _) _ _ _ => apply post_try
  end.

(** ** [check_memory] *)

Lemma available_gb_below_one (available : Z) :
  Qltb (inject_Z available / inject_Z GiB) 1 = (available <? GiB).
Proof.
  unfold Qltb, Qle_bool, Qdiv, Qmult, Qinv, inject_Z, GiB. cbn.
  destruct (Z.leb_spec 1073741824 (available * 1 * 1)),
    (Z.ltb_spec available 1073741824); try reflexivity; exfalso; lia.
Qed.

Lemma available_gb_below_half (available : Z) :
  Qltb (inject_Z available / inject_Z GiB) (1 # 2) = (available * 2 <? GiB).
Proof.
  unfold Qltb, Qle_bool, Qdiv, Qmult, Qinv, inject_Z, GiB. cbn.
  destruct (Z.leb_spec 1073741824 (available * 1 * 2)),
    (Z.ltb_spec (available * 2) 1073741824); try reflexivity; exfalso; lia.
Qed.

(** ** Invariants of a computation *)

Section Keeps.

Variable I : world -> Prop.
Variable X : raised -> Prop.

Lemma keeps_ret {A} (a : A) : keeps I X (ret a).
Proof. intros w H. exact H. Qed.

Lemma keeps_raise {A} e : X e -> keeps I X (@raise A e).
Proof. intros He w H. now split. Qed.

Lemma keeps_get {A} (f : world -> A) : keeps I X (get f).
Proof. intros w H. exact H. Qed.

Lemma keeps_modify f : (forall w, I w -> I (f w)) -> keeps I X (modify f).
Proof. intros Hf w H. apply Hf, H. Qed.

Lemma keeps_bind {A B} (m : M A) (k : A -> M B) :
  keeps I X m -> (forall a, keeps I X (k a)) -> keeps I X (bind m k).
Proof.
  intros Hm Hk w H. apply post_bind.
  eapply post_mono; [apply Hm, H| |auto]. intros a w' H'. now apply Hk.
Qed.

Lemma keeps_try {A} (Y : raised -> Prop) (m handler : M A) :
  keeps I Y m ->
  (Y KeyboardInterrupt -> X KeyboardInterrupt) ->
  keeps I X handler ->
  keeps I X (try_except m handler).
Proof.
  intros Hm HY Hh w H. apply post_try.
  eapply post_mono; [apply Hm, H|auto|].
  intros [|] w' [H' Hy]; [now apply Hh|auto].
Qed.

Lemma keeps_when b m : keeps I X m -> keeps I X (when b m).
Proof. intros Hm. destruct b; [exact Hm|apply keeps_ret]. Qed.

Lemma keeps_if {A} (b : bool) (m1 m2 : M A) :
  keeps I X m1 -> keeps I X m2 -> keeps I X (if b then m1 else m2).
Proof. now destruct b. Qed.

Lemma keeps_weaken {A} (Y : raised -> Prop) (m : M A) :
  keeps I Y m -> (forall e, Y e -> X e) -> keeps I X m.
Proof.
  intros Hm HY w H. eapply post_mono; [apply Hm, H|auto|].
  intros e w' [H' Hy]. auto.
Qed.

End Keeps.

Ltac keeps_step :=
  lazymatch goal with
  | |- keeps _ _ (bind _ _) => apply keeps_bind; [|intros ?]
  | |- keeps _ _ (ret _) => apply keeps_ret
  | |- keeps _ _ (get _) => apply keeps_get
  | |- keeps _ _ (when _ _) => apply keeps_when
  | |- keeps _ _ (if _ then _ else _) => apply keeps_if
  | |- keeps _ _ (modify _) => apply keeps_modify
  end.

Create HintDb stable.

(** Invariants that do not read the record counter or the output, and that
    every INSERT keeps. *)
Section Insert.

Variable I : world -> Prop.
Variable X : raised -> Prop.

Hypothesis I_total_records : forall v w, I w -> I (set_total_records v w).
Hypothesis I_stdout : forall v w, I w -> I (set_stdout v w).
Hypothesis I_insert : forall r, keeps I X (execute_insert r).

Lemma keeps_print Y p : keeps I Y (print p).
Proof. unfold print. keeps_step. auto. Qed.

Lemma keeps_executemany batch : keeps I X (executemany batch).
Proof. induction batch; simpl; repeat keeps_step; auto. Qed.

Lemma keeps_insert_one_by_one batch :
  forall s, keeps I (interrupt_only X) (insert_one_by_one batch s).
Proof.
  induction batch as [|r batch IH]; intros s; simpl; repeat keeps_step; auto.
  apply keeps_try with (Y := X); [|now split|apply keeps_ret].
  repeat keeps_step; auto.
Qed.

Lemma keeps_insert_batch batch :
  keeps I (interrupt_only X) (insert_batch batch).
Proof.
  unfold insert_batch. repeat keeps_step.
  apply keeps_try with (Y := X); [apply keeps_executemany|now split|].
  repeat keeps_step;
    auto using keeps_print, keeps_insert_one_by_one.
Qed.

Lemma keeps_show_progress Y a b : keeps I Y (show_progress a b).
Proof. unfold show_progress. repeat keeps_step. apply keeps_print. Qed.

Lemma keeps_flush_batch : keeps I (interrupt_only X) flush_batch.
Proof.
  unfold flush_batch. repeat keeps_step; auto. apply keeps_insert_batch.
Qed.

End Insert.

Lemma execute_insert_locals r w :
  let w' := snd (execute_insert r w) in
  lines_processed w' = lines_processed w /\
  batch_records w' = batch_records w /\
  error_count w' = error_count w /\
  batch_count w' = batch_count w /\
  total_records w' = total_records w /\
  batch_size w' = batch_size w /\
  commit_env w' = commit_env w /\
  stdout w' = stdout w.
Proof.
  unfold execute_insert. destruct (stmt_env w) as [|[| |] env]; simpl; tauto.
Qed.

(** The same invariants, when they do not read the local variables of
    [load_data] either. *)
Section Lines.

Variable I : world -> Prop.
Variable X : raised -> Prop.

Hypothesis I_total_records : forall v w, I w -> I (set_total_records v w).
Hypothesis I_stdout : forall v w, I w -> I (set_stdout v w).
Hypothesis I_insert : forall r, keeps I X (execute_insert r).
Hypothesis I_batch_records : forall v w, I w -> I (set_batch_records v w).
Hypothesis I_lines_processed : forall v w, I w -> I (set_lines_processed v w).
Hypothesis I_batch_count : forall v w, I w -> I (set_batch_count v w).
Hypothesis I_error_count : forall v w, I w -> I (set_error_count v w).

(** The invariant together with the number of lines processed. *)
Let at_line (k : Z) : world -> Prop :=
  fun w => I w /\ lines_processed w = k.

Lemma at_line_insert k r : keeps (at_line k) X (execute_insert r).
Proof.
  intros w [H Hk]. specialize (I_insert r H).
  pose proof (execute_insert_locals r w) as L. cbv zeta in L.
  unfold post in *. destruct (execute_insert r w) as [[a|e] w'];
    simpl in L; unfold at_line; intuition congruence.
Qed.

Lemma at_line_total_records k v w :
  at_line k w -> at_line k (set_total_records v w).
Proof. intros [H Hk]. split; auto. Qed.

Lemma at_line_stdout k v w : at_line k w -> at_line k (set_stdout v w).
Proof. intros [H Hk]. split; auto. Qed.

Lemma at_line_batch_records k v w :
  at_line k w -> at_line k (set_batch_records v w).
Proof. intros [H Hk]. split; auto. Qed.

Lemma at_line_batch_count k v w :
  at_line k w -> at_line k (set_batch_count v w).
Proof. intros [H Hk]. split; auto. Qed.

Lemma at_line_error_count k v w :
  at_line k w -> at_line k (set_error_count v w).
Proof. intros [H Hk]. split; auto. Qed.

Local Hint Resolve at_line_total_records at_line_stdout
  at_line_batch_records at_line_batch_count at_line_error_count
  at_line_insert : stable.

Lemma post_bind_keeps {A B} (J : world -> Prop) (Y : raised -> Prop)
    (m : M A) (k : A -> M B) Q E w :
  keeps J Y m ->
  (forall a w', J w' -> post (k a) w' Q E) ->
  (forall e w', J w' -> Y e -> E e w') ->
  J w ->
  post (bind m k) w Q E.
Proof.
  intros Hm Hk HE Hw. apply post_bind.
  eapply post_mono; [apply Hm, Hw|auto|]. intros e w' [H' Hy]. auto.
Qed.

Lemma keeps_process_line k n line :
  forall w, at_line k w ->
    post (process_line n line) w
         (fun _ => at_line (k + 1))
         (fun e w' => I w' /\ interrupt_only X e).
Proof.
  intros w Hw. unfold process_line.
  apply post_bind_keeps
    with (J := at_line k) (Y := interrupt_only X); [| |firstorder|exact Hw].
  { destruct (parse_line line) as [r|]; [destruct (nonempty r)|];
      keeps_step; auto with stable. }
  intros ? w1 H1. apply post_bind, post_get.
  apply post_bind_keeps
    with (J := at_line k) (Y := interrupt_only X); [| |firstorder|exact H1].
  { repeat keeps_step; auto with stable.
    - apply keeps_flush_batch; auto with stable.
    - apply keeps_show_progress; auto with stable. }
  intros ? w2 [H2 Hk2].
  apply post_bind, post_modify, post_bind, post_get, post_bind, post_get.
  eapply post_mono.
  - apply keeps_when
      with (I := at_line (k + 1)) (X := interrupt_only X).
    + apply keeps_show_progress; auto with stable.
    + split; [auto|]. simpl. now rewrite Hk2.
  - auto.
  - firstorder.
Qed.

Lemma keeps_for_lines file :
  forall k n w, at_line k w ->
    post (for_lines n file) w
         (fun _ => at_line (k + len file))
         (fun e w' => I w' /\ read_faults X file e).
Proof.
  induction file as [|[l| |] file IH]; intros k n w Hw; simpl.
  - unfold len. simpl. now rewrite Z.add_0_r.
  - apply post_bind, post_try.
    eapply post_mono; [apply keeps_process_line, Hw| |].
    + intros ? w1 H1. eapply post_mono; [apply (IH _ _ _ H1)| |].
      * intros ? w2 H2. unfold len in *. cbn [length].
        now replace (k + Z.of_nat (S (length file)))
          with (k + 1 + Z.of_nat (length file)) by lia.
      * intros [|] w2 [H2 Hr]; simpl in *; tauto.
    + intros e w1 [H1 [-> Hx]]. split; [exact H1|now left].
  - destruct Hw. split; [assumption|now left].
  - destruct Hw. split; [assumption|right; now left].
Qed.

End Lines.

(** The same invariants through the whole of [load_data], when the
    statements of the transaction keep them too. *)
Section Load.

Variable I : world -> Prop.
Variable X : raised -> Prop.

Hypothesis I_total_records : forall v w, I w -> I (set_total_records v w).
Hypothesis I_stdout : forall v w, I w -> I (set_stdout v w).
Hypothesis I_insert : forall r, keeps I X (execute_insert r).
Hypothesis I_batch_records : forall v w, I w -> I (set_batch_records v w).
Hypothesis I_lines_processed : forall v w, I w -> I (set_lines_processed v w).
Hypothesis I_batch_count : forall v w, I w -> I (set_batch_count v w).
Hypothesis I_error_count : forall v w, I w -> I (set_error_count v w).
Hypothesis I_begin : keeps I any_exception begin_transaction.
Hypothesis I_commit : keeps I any_exception commit.
Hypothesis I_rollback : keeps I any_exception rollback.

Lemma keeps_for_lines_any n file : keeps I any_exception (for_lines n file).
Proof.
  intros w H.
  eapply post_mono;
    [apply (@keeps_for_lines I X) with (k := lines_processed w); auto;
     now split| |].
  - intros _ w' [H' _]. exact H'.
  - intros e w' [H' _]. now split.
Qed.

Lemma keeps_read_header file : keeps I any_exception (read_header file).
Proof.
  destruct file as [|[l| |] file]; simpl;
    first [apply keeps_ret | now apply keeps_raise].
Qed.

Lemma keeps_select_count : keeps I any_exception select_count.
Proof.
  intros w H. unfold post, select_count.
  destruct (count_env w); [exact H|now split|now split].
Qed.

Lemma keeps_show_final_results a b :
  keeps I any_exception (show_final_results a b).
Proof.
  unfold show_final_results.
  repeat keeps_step;
    auto using keeps_print, keeps_select_count; now apply keeps_raise.
Qed.

Lemma keeps_load_data file : keeps I any_exception (load_data file).
Proof.
  unfold load_data. keeps_step; [keeps_step; auto|].
  apply keeps_try with (Y := any_exception); [|easy|].
  - repeat keeps_step;
      auto using keeps_read_header, keeps_for_lines_any,
        keeps_show_final_results.
    apply keeps_weaken with (Y := interrupt_only X); [|easy].
    now apply keeps_flush_batch.
  - repeat keeps_step; auto using keeps_print. now apply keeps_raise.
Qed.

End Load.

Lemma keeps_guarded (I : world -> Prop) body :
  (forall v w, I w -> I (set_stdout v w)) ->
  keeps I any_exception body ->
  keeps I any_exception close ->
  keeps I any_exception (guarded body).
Proof.
  intros Hout Hbody Hclose w H. specialize (Hbody w H).
  unfold post, guarded in *.
  destruct (body w) as [[[]|[|]] w']; simpl in Hbody.
  - now apply Hclose.
  - apply (Hclose (set_stdout _ w')). now apply Hout.
  - apply (Hclose (set_stdout _ w')). now apply Hout.
Qed.

(** ** The batch size during a run *)

Lemma batch_size_execute_insert b r :
  keeps (fun w => batch_size w = b) any_exception (execute_insert r).
Proof.
  intros w H. unfold post, execute_insert.
  destruct (stmt_env w) as [|[| |] env]; simpl; auto; now split.
Qed.

Lemma batch_size_pipeline b file :
  keeps (fun w => batch_size w = b) any_exception (pipeline file).
Proof.
  unfold pipeline, connect_db, create_table, create_indexes,
    optimize_database, verify_data.
  repeat keeps_step; auto.
  apply keeps_load_data with (X := any_exception);
    auto using batch_size_execute_insert.
  - intros w H. unfold post, begin_transaction.
    destruct (pending (conn w)); simpl; auto; now split.
  - intros w H. unfold post, commit.
    destruct (commit_env w); simpl; auto; now split.
  - unfold rollback. now keeps_step.
Qed.

(** C9: when the free memory found by the pre-flight check is below 1 GiB,
    the batch size of the converter is 15000 from then on: the steps of
    the run start from a state with that batch size whenever the run goes
    ahead, and it is still the batch size when [main] ends. *)
Theorem low_memory_reduces_batch_size (p : process) (w : world) :
  file_exists p = true ->
  available p < GiB ->
  batch_size (snd (main p w)) = 15000 /\
  (GiB <= available p * 2 ->
   confirmed (answer p) = true ->
   exists w1,
     batch_size w1 = 15000 /\
     main p w = guarded (pipeline (padron p)) w1).
Proof.
  intros Hfile Hlow. unfold main. rewrite Hfile. cbn [negb].
  unfold check_memory, bind, modify, when, ret. cbv beta.
  rewrite available_gb_below_one.
  destruct (Z.ltb_spec (available p) GiB) as [_|]; [|lia].
  cbv beta iota. rewrite available_gb_below_half.
  set (w1 := set_batch_size 15000 _).
  assert (H1 : batch_size w1 = 15000) by reflexivity.
  destruct (Z.ltb_spec (available p * 2) GiB) as [Hhalf|Hhalf].
  - split; [exact H1|]. intros; lia.
  - destruct (confirmed (answer p)); cbn [negb].
    + split; [|intros _ _; now exists w1].
      assert (Hc : keeps (fun w => batch_size w = 15000) any_exception close)
        by (unfold close; now keeps_step).
      pose proof (@keeps_guarded (fun w => batch_size w = 15000)
                    (pipeline (padron p)) (fun _ _ H => H)
                    (@batch_size_pipeline 15000 (padron p)) Hc w1 H1) as G.
      unfold post in G.
      destruct (guarded (pipeline (padron p)) w1) as [[[]|e] w2];
        [exact G|exact (proj1 G)].
    + split; [exact H1|]. intros _ [=].
Qed.

Lemma low_memory_reduces_batch_size_witness :
  batch_size (snd (main low_memory_process fresh_world)) = 15000 /\
  (GiB <= available low_memory_process * 2 ->
   confirmed (answer low_memory_process) = true ->
   exists w1,
     batch_size w1 = 15000 /\
     main low_memory_process fresh_world
     = guarded (pipeline (padron low_memory_process)) w1).
Proof.
  apply (low_memory_reduces_batch_size low_memory_process fresh_world).
  - reflexivity.
  - reflexivity.
Defined.

(** ** The cases of [load_data] *)

Lemma show_final_results_returns total_lines errors w :
  total_lines <> 0 ->
  Qeq_bool (elapsed_env w) 0 = false ->
  count_env w = StmtOk ->
  post (show_final_results total_lines errors) w
       (fun _ w' => conn w' = conn w) (fun _ _ => False).
Proof.
  intros Hz Hclock Hcount. unfold show_final_results.
  repeat post_step. cbn.
  destruct (Z.eqb_spec total_lines 0) as [|_]; [contradiction|].
  rewrite Hclock. repeat post_step.
  unfold post at 1, select_count. cbn. rewrite Hcount.
  repeat post_step. cbn.
  destruct (negb _); repeat post_step; reflexivity.
Qed.

Section Cases.

Variable I : world -> Prop.
Variable X : raised -> Prop.

Hypothesis I_total_records : forall v w, I w -> I (set_total_records v w).
Hypothesis I_stdout : forall v w, I w -> I (set_stdout v w).
Hypothesis I_insert : forall r, keeps I X (execute_insert r).
Hypothesis I_batch_records : forall v w, I w -> I (set_batch_records v w).
Hypothesis I_lines_processed : forall v w, I w -> I (set_lines_processed v w).
Hypothesis I_batch_count : forall v w, I w -> I (set_batch_count v w).
Hypothesis I_error_count : forall v w, I w -> I (set_error_count v w).
Hypothesis I_begin :
  forall w, I w -> I (set_conn (conn_write (committed (conn w)) (conn w)) w).
Hypothesis I_summary :
  forall w, I w -> Qeq_bool (elapsed_env w) 0 = false /\ count_env w = StmtOk.

Lemma load_data_handler file w w' :
  I w' ->
  In ReadError file \/ commit_env w' = StmtError ->
  post (rollback ;; print LoadError ;; raise Error) w'
       (load_returns I) (load_raises I X file w).
Proof.
  intros H' Hin. unfold rollback. repeat post_step.
  exists w'. split; [exact H'|]. left. now split.
Qed.

Lemma load_data_cases file w :
  I w ->
  pending (conn w) = None ->
  post (load_data file) w (load_returns I) (load_raises I X file w).
Proof.
  intros Hw Hpend. unfold load_data.
  apply post_bind, post_modify.
  set (w0 := set_batch_records [] _).
  assert (H0 : I w0) by (unfold w0; auto).
  apply post_try, post_bind.
  unfold post at 1, begin_transaction. cbn [conn w0 set_batch_records
    set_lines_processed set_batch_count set_error_count].
  rewrite Hpend.
  set (w1 := set_conn _ w0).
  assert (H1 : I w1) by (unfold w1; apply (I_begin H0)).
  assert (Hc1 : conn w1 = conn_write (committed (conn w)) (conn w))
    by reflexivity.
  assert (Hlp1 : lines_processed w1 = 0) by reflexivity.
  assert (Hb1 : batch_records w1 = []) by reflexivity.
  clearbody w1. clear w0 H0.
  apply post_bind.
  assert (Hrest : forall rest,
            tl file = rest -> (forall ev, In ev rest -> In ev file) ->
            post (for_lines 1 rest ;;
                  remaining <- get batch_records ;;
                  when (nonempty remaining) flush_batch ;;
                  commit ;;
                  total_lines <- get lines_processed ;;
                  errors <- get error_count ;;
                  show_final_results total_lines errors) w1
              (load_returns I)
              (fun e w' =>
                 match e with
                 | Error =>
                     post (rollback ;; print LoadError ;; raise Error) w'
                          (load_returns I) (load_raises I X file w)
                 | KeyboardInterrupt => load_raises I X file w KeyboardInterrupt w'
                 end)).
  { intros rest Htl Hin. destruct rest as [|ev rest'].
    - (* no data line *)
      cbn [for_lines]. repeat post_step. rewrite Hb1. cbn [nonempty].
      repeat post_step. unfold post at 1, commit.
      destruct (commit_env w1) eqn:Hce.
      + repeat post_step. cbn [lines_processed set_conn]. rewrite Hlp1.
        unfold show_final_results. repeat post_step. cbn.
        unfold rollback. repeat post_step.
        exists w1. split; [exact H1|]. right. cbn. auto.
      + apply load_data_handler; auto.
      + exists w1. split; [exact H1|]. split; [reflexivity|tauto].
    - (* at least one data line *)
      apply post_bind.
      eapply post_mono;
        [apply (@keeps_for_lines I X) with (k := 0); auto; now split| |].
      + intros ? w2 [H2 Hlp2].
        assert (Hpos : lines_processed w2 <> 0)
          by (rewrite Hlp2; unfold len; cbn [length]; lia).
        apply post_bind, post_get.
        apply post_bind_keeps
          with (J := fun w => I w /\ lines_processed w = lines_processed w2)
               (Y := interrupt_only X).
        * apply keeps_when, keeps_flush_batch.
          -- intros v w' [H' Hk]. split; auto.
          -- intros v w' [H' Hk]. split; auto.
          -- intros r. apply (@at_line_insert I X); auto.
        * intros ? w3 [H3 Hlp3]. apply post_bind.
          unfold post at 1, commit.
          destruct (commit_env w3) eqn:Hce.
          -- apply post_bind, post_get, post_bind, post_get.
             destruct (I_summary H3) as [Hclock Hcount].
             eapply post_mono;
               [apply show_final_results_returns| |].
             ++ cbn. congruence.
             ++ exact Hclock.
             ++ exact Hcount.
             ++ intros ? w4 H4. exists w3. split; [exact H3|exact H4].
             ++ intros ? ? [].
          -- apply load_data_handler; auto.
          -- exists w3. split; [exact H3|]. split; [reflexivity|tauto].
        * intros e w3 [H3 _] [-> Hx].
          exists w3. split; [exact H3|]. split; [reflexivity|tauto].
        * now split.
      + intros [|] w2 [H2 Hr]; unfold read_faults in Hr.
        * apply load_data_handler; auto.
        * exists w2. split; [exact H2|]. split; [reflexivity|].
          destruct Hr as [Hx|Hi]; auto. }
  destruct file as [|[h| |] rest]; cbn [read_header].
  - apply post_ret, Hrest; auto.
  - apply post_ret, Hrest; auto. intros ev Hev. now right.
  - apply post_raise. apply load_data_handler; auto. left. now left.
  - apply post_raise.
    exists w1. split; [exact H1|]. split; [reflexivity|].
    right. left. now left.
Qed.

End Cases.

(** ** Faults before the summary *)

(** A statement of a batch leaves the committed table, the clock and the
    outcome of the count query as they are. *)
Lemma committed_execute_insert t r :
  keeps (fun w => committed (conn w) = t /\
                  Qeq_bool (elapsed_env w) 0 = false /\
                  count_env w = StmtOk)
        any_exception (execute_insert r).
Proof.
  intros w H. unfold post, execute_insert.
  destruct (stmt_env w) as [|[| |] env]; simpl; auto; now split.
Qed.

(** ** The fallback of [insert_batch] *)

Lemma succeeded_failed_length batch env :
  (length (succeeded batch env) + length (failed batch env))%nat = length batch.
Proof.
  revert env; induction batch as [|r batch IH]; intros [|[| |] env]; simpl;
    auto; try (rewrite <- (IH env); lia).
Qed.

Lemma insert_one_by_one_spec batch :
  forall s w,
    no_interrupt (stmt_env w) ->
    exists w',
      insert_one_by_one batch s w
      = (Return (s + len (succeeded batch (stmt_env w))), w') /\
      working (conn w')
      = insert_all (succeeded batch (stmt_env w)) (working (conn w)) /\
      committed (conn w') = committed (conn w) /\
      stdout w' = stdout w /\
      no_interrupt (stmt_env w').
Proof.
  induction batch as [|r batch IH]; intros s w Hn.
  - exists w. unfold len. simpl. rewrite Z.add_0_r. auto.
  - cbn [insert_one_by_one]. unfold bind at 1, try_except, bind, ret.
    unfold execute_insert.
    destruct (stmt_env w) as [|[| |] env] eqn:Henv.
    + set (w1 := set_conn _ _).
      destruct (IH (s + 1) w1) as (w' & Hrun & Hw & Hc & Ho & Hn');
        [constructor|].
      exists w'. rewrite Hrun. cbn [stmt_env w1 set_conn set_stmt_env].
      repeat split; auto.
      * f_equal. f_equal. unfold len. destruct batch; simpl; lia.
      * rewrite Hw. destruct batch; reflexivity.
    + set (w1 := set_conn _ _).
      destruct (IH (s + 1) w1) as (w' & Hrun & Hw & Hc & Ho & Hn');
        [now inversion Hn|].
      exists w'. rewrite Hrun. cbn [stmt_env w1 set_conn set_stmt_env].
      repeat split; auto.
      f_equal. f_equal. unfold len. cbn [succeeded length]. lia.
    + set (w1 := set_stmt_env _ _).
      destruct (IH s w1) as (w' & Hrun & Hw & Hc & Ho & Hn');
        [now inversion Hn|].
      exists w'. rewrite Hrun. cbn [stmt_env w1 set_stmt_env].
      repeat split; auto.
    + inversion Hn; congruence.
Qed.

Lemma executemany_stdout batch :
  forall w, stdout (snd (executemany batch w)) = stdout w.
Proof.
  induction batch as [|r batch IH]; intros w; [reflexivity|].
  cbn [executemany]. unfold bind.
  pose proof (execute_insert_locals r w) as L. cbv zeta in L.
  destruct (execute_insert r w) as [[[]|e] w1]; cbn [snd] in *.
  - rewrite IH. tauto.
  - tauto.
Qed.

Lemma no_interrupt_execute_insert r :
  keeps only_inserts_fail (fun e => e = Error) (execute_insert r).
Proof.
  intros w (Hn & Hc & Hclock & Hcount). unfold post, execute_insert.
  unfold only_inserts_fail.
  destruct (stmt_env w) as [|[| |] env]; cbn; inversion Hn; subst;
    repeat split; auto; congruence.
Qed.



(** ** Rows and identifiers *)

Lemma has_ruc_true k r : has_ruc k r = true <-> ruc r = Some k.
Proof.
  unfold has_ruc. destruct (ruc r) as [k'|]; [|split; discriminate].
  destruct (str_eqb_spec k' k); split; congruence.
Qed.

Lemma rows_with_ruc_insert k r t :
  rows_with_ruc k (insert_or_replace r t)
  = if has_ruc k r then [r] else rows_with_ruc k t.
Proof.
  unfold rows_with_ruc, insert_or_replace.
  destruct (has_ruc k r) eqn:Hr.
  - apply has_ruc_true in Hr as Hk. rewrite Hk, filter_app. cbn [filter].
    rewrite Hr.
    replace (filter (has_ruc k) (filter (fun row => negb (has_ruc k row)) t))
      with (@nil record); [reflexivity|].
    induction t as [|x t IH]; [reflexivity|].
    cbn [filter]. destruct (has_ruc k x) eqn:Hx; cbn [negb filter]; auto.
    now rewrite Hx.
  - destruct (ruc r) as [k'|] eqn:Hk.
    + rewrite filter_app. cbn [filter]. rewrite Hr, app_nil_r.
      induction t as [|x t IH]; [reflexivity|].
      cbn [filter]. destruct (has_ruc k x) eqn:Hx.
      * assert (Hx' : has_ruc k' x = false).
        { destruct (has_ruc k' x) eqn:E; [|reflexivity].
          apply has_ruc_true in Hx, E.
          assert (k = k') by congruence. subst k'.
          assert (has_ruc k r = true) by now apply has_ruc_true.
          congruence. }
        rewrite Hx'. cbn [negb filter]. rewrite Hx. now f_equal.
      * destruct (has_ruc k' x); cbn [negb filter]; [exact IH|].
        now rewrite Hx.
    + rewrite filter_app. cbn [filter]. now rewrite Hr, app_nil_r.
Qed.

Lemma insert_all_snoc rows r t :
  insert_all (rows ++ [r]) t = insert_or_replace r (insert_all rows t).
Proof. unfold insert_all. now rewrite fold_left_app. Qed.

Lemma insert_all_app rows rows' t :
  insert_all (rows ++ rows') t = insert_all rows' (insert_all rows t).
Proof. unfold insert_all. now rewrite fold_left_app. Qed.

Lemma rows_with_ruc_insert_all k rows t :
  rows_with_ruc k (insert_all rows t)
  = match last_with_ruc k rows with
    | Some r => [r]
    | None => rows_with_ruc k t
    end.
Proof.
  unfold last_with_ruc.
  induction rows as [|r rows IH] using rev_ind; [reflexivity|].
  rewrite insert_all_snoc, rows_with_ruc_insert, rev_app_distr.
  cbn [rev app find]. destruct (has_ruc k r); [reflexivity|exact IH].
Qed.

Lemma unique_ruc_insert r t :
  unique_ruc t -> unique_ruc (insert_or_replace r t).
Proof.
  intros H k. rewrite rows_with_ruc_insert.
  destruct (has_ruc k r); [simpl; lia|apply H].
Qed.

Lemma identifiers_app rows rows' :
  identifiers (rows ++ rows') = identifiers rows ++ identifiers rows'.
Proof. unfold identifiers. now rewrite flat_map_app. Qed.

Lemma filter_other_ruc k t :
  ~ In k (identifiers t) ->
  filter (fun row => negb (has_ruc k row)) t = t.
Proof.
  induction t as [|x t IH]; [reflexivity|].
  intros Hn. cbn [filter].
  change (x :: t) with ([x] ++ t) in Hn.
  rewrite identifiers_app, in_app_iff in Hn.
  destruct (has_ruc k x) eqn:Hx.
  - exfalso. apply Hn. left. apply has_ruc_true in Hx.
    unfold identifiers. cbn. rewrite Hx. now left.
  - cbn [negb]. f_equal. apply IH. tauto.
Qed.

(** Rows with fresh, pairwise distinct identifiers are only added. *)
Lemma insert_all_fresh rows :
  forall t, NoDup (identifiers (t ++ rows)) -> insert_all rows t = t ++ rows.
Proof.
  induction rows as [|r rows IH]; intros t Hnd.
  - now rewrite app_nil_r.
  - change (r :: rows) with ([r] ++ rows) in *.
    rewrite app_assoc in Hnd. rewrite insert_all_app, app_assoc.
    assert (Hr : insert_all [r] t = t ++ [r]).
    { cbn. unfold insert_or_replace.
      destruct (ruc r) as [k|] eqn:Hk; [|reflexivity].
      rewrite filter_other_ruc; [reflexivity|].
      rewrite !identifiers_app in Hnd. apply NoDup_app_remove_r in Hnd.
      unfold identifiers at 2 in Hnd. cbn in Hnd. rewrite Hk in Hnd.
      cbn in Hnd. intros Hin.
      apply NoDup_remove_2 in Hnd. rewrite app_nil_r in Hnd. tauto. }
    rewrite Hr. now apply IH.
Qed.

(** ** A load in which every statement succeeds *)

Lemma all_ok_tl env : all_ok env -> all_ok (tl env).
Proof. intros H. destruct env; [exact H|now inversion H]. Qed.

Lemma execute_insert_ok r w :
  all_ok (stmt_env w) ->
  execute_insert r w
  = (Return tt,
     set_conn (conn_write (insert_or_replace r (working (conn w))) (conn w))
              (set_stmt_env (tl (stmt_env w)) w)).
Proof.
  intros H. unfold execute_insert.
  destruct (stmt_env w) as [|o env]; [reflexivity|].
  inversion H; subst. reflexivity.
Qed.

Lemma executemany_ok batch :
  forall w,
    all_ok (stmt_env w) ->
    exists w',
      executemany batch w = (Return tt, w') /\
      all_ok (stmt_env w') /\
      working (conn w') = insert_all batch (working (conn w)) /\
      committed (conn w') = committed (conn w) /\
      total_records w' = total_records w /\
      frame w' = frame w.
Proof.
  induction batch as [|r batch IH]; intros w H.
  - exists w. repeat split; auto.
  - cbn [executemany]. unfold bind. rewrite execute_insert_ok by exact H.
    set (w1 := set_conn _ _).
    destruct (IH w1) as (w' & Hrun & Hok & Hw & Hc & Ht & Hf).
    { apply all_ok_tl in H. exact H. }
    exists w'. rewrite Hrun. repeat split; auto.
Qed.

Lemma flush_batch_ok w :
  all_ok (stmt_env w) ->
  exists w',
    flush_batch w = (Return tt, w') /\
    all_ok (stmt_env w') /\
    working (conn w') = insert_all (batch_records w) (working (conn w)) /\
    committed (conn w') = committed (conn w) /\
    total_records w' = total_records w + len (batch_records w) /\
    frame w' = frame w.
Proof.
  intros H. unfold flush_batch, bind, get, modify, insert_batch.
  destruct (batch_records w) as [|r batch] eqn:Hb.
  - cbn. eexists. split; [reflexivity|].
    repeat split; auto.
  - cbn [nonempty]. unfold try_except.
    destruct (@executemany_ok (r :: batch) w H)
      as (w' & Hrun & Hok & Hw & Hc & Ht & Hf).
    rewrite Hrun. eexists. split; [reflexivity|].
    cbn. unfold frame in *. cbn. rewrite Ht, Hb in *. repeat split; auto.
Qed.

Lemma parsed_records_app lines lines' :
  parsed_records (lines ++ lines')
  = parsed_records lines ++ parsed_records lines'.
Proof.
  induction lines as [|l lines IH]; [reflexivity|].
  cbn. destruct (parse_line l); cbn; now rewrite IH.
Qed.

Lemma parsed_records_length lines :
  (length (parsed_records lines) <= length lines)%nat.
Proof.
  induction lines as [|l lines IH]; cbn; [lia|].
  destruct (parse_line l); cbn; lia.
Qed.

Lemma parse_line_nonempty line r : parse_line line = Some r -> nonempty r = true.
Proof.
  intros H. apply parse_line_length in H. destruct r; [discriminate|reflexivity].
Qed.

Lemma len_app {A} (l l' : list A) : len (l ++ l') = len l + len l'.
Proof. unfold len. rewrite length_app. lia. Qed.

Lemma bind_Return {A B} (m : M A) (k : A -> M B) w a w' :
  m w = (Return a, w') -> bind m k w = k a w'.
Proof. unfold bind. now intros ->. Qed.

Lemma bind_get {A B} (f : world -> A) (k : A -> M B) w :
  bind (get f) k w = k (f w) w.
Proof. reflexivity. Qed.

Lemma bind_modify {B} f (k : unit -> M B) w :
  bind (modify f) k w = k tt (f w).
Proof. reflexivity. Qed.

Lemma process_line_ok w0 t0 done n line w :
  loaded w0 t0 done w ->
  exists w',
    process_line n line w = (Return tt, w') /\
    loaded w0 t0 (done ++ [line]) w' /\
    batch_size w' = batch_size w.
Proof.
  intros (Hok & Hce & Hco & Htab & Htot & Hlp & Herr & ps & Hout & Hps).
  unfold process_line.
  (* the record is kept or the line counted as an error *)
  set (w1 := match parse_line line with
             | Some r => set_batch_records (batch_records w ++ [r]) w
             | None => set_error_count (error_count w + 1) w
             end).
  assert (Hstep1 :
            (match parse_line line with
             | Some r =>
                 if nonempty r
                 then modify (fun w => set_batch_records
                                         (batch_records w ++ [r]) w)
                 else modify (fun w => set_error_count (error_count w + 1) w)
             | None => modify (fun w => set_error_count (error_count w + 1) w)
             end) w = (Return tt, w1)).
  { unfold w1. destruct (parse_line line) as [r|] eqn:Hp; [|reflexivity].
    now rewrite (parse_line_nonempty _ Hp). }
  rewrite (bind_Return _ _ _ Hstep1). clear Hstep1.
  assert (H1 : all_ok (stmt_env w1) /\ commit_env w1 = commit_env w0 /\
               committed (conn w1) = committed (conn w0) /\
               insert_all (batch_records w1) (working (conn w1))
               = insert_all (parsed_records (done ++ [line])) t0 /\
               total_records w1 + len (batch_records w1)
               = total_records w0 + len (parsed_records (done ++ [line])) /\
               lines_processed w1 = len done /\
               error_count w1
               = len done + 1 - len (parsed_records (done ++ [line])) /\
               stdout w1 = stdout w0 ++ ps /\
               batch_size w1 = batch_size w).
  { rewrite parsed_records_app. unfold w1. cbn [parsed_records].
    destruct (parse_line line) as [r|]; cbn.
    - rewrite !insert_all_app, !len_app, Htab. unfold len in *. cbn.
      repeat split; auto; lia.
    - rewrite !app_nil_r. repeat split; auto; lia. }
  clearbody w1.
  destruct H1 as (Hok1 & Hce1 & Hco1 & Htab1 & Htot1 & Hlp1 & Herr1 & Hout1 & Hbs1).
  rewrite bind_get.
  (* the batch is flushed when it is full *)
  assert (Hstep2 : exists w2 ps2,
            when (batch_size w1 <=? len (batch_records w1))
              (flush_batch ;;
               modify (fun w => set_batch_count (batch_count w + 1) w) ;;
               count <- get batch_count ;;
               errors <- get error_count ;;
               when (count mod 10 =? 0) (show_progress n errors) ;;
               modify (set_batch_records [])) w1 = (Return tt, w2) /\
            all_ok (stmt_env w2) /\ commit_env w2 = commit_env w0 /\
            committed (conn w2) = committed (conn w0) /\
            insert_all (batch_records w2) (working (conn w2))
            = insert_all (parsed_records (done ++ [line])) t0 /\
            total_records w2 + len (batch_records w2)
            = total_records w0 + len (parsed_records (done ++ [line])) /\
            lines_processed w2 = len done /\
            error_count w2
            = len done + 1 - len (parsed_records (done ++ [line])) /\
            stdout w2 = stdout w0 ++ ps2 /\ Forall is_progress ps2 /\
            batch_size w2 = batch_size w).
  { destruct (batch_size w1 <=? len (batch_records w1)); cbn [when].
    - destruct (@flush_batch_ok w1 Hok1) as (w' & Hrun & Hok' & Hw' & Hc' & Ht' & Hf').
      unfold frame in Hf'. injection Hf' as Hf1 Hf2 Hf3 Hf4 Hf5 Hf6 Hf7 Hf8.
      rewrite (bind_Return _ _ _ Hrun), bind_modify, !bind_get.
      cbn [batch_count set_batch_count error_count].
      unfold bind, modify, get, when, show_progress, print, bind, get, modify.
      destruct ((batch_count w' + 1) mod 10 =? 0).
      + eexists. exists (ps ++ [Progress n (total_records w') (error_count w')]).
        split; [reflexivity|]. cbn.
        rewrite Hf7, Hout1, <- app_assoc, Hw', Htab1.
        repeat split; auto; try congruence.
        * unfold len in *. cbn. lia.
        * apply Forall_app. split; [exact Hps|]. now repeat constructor.
      + eexists. exists ps. split; [reflexivity|]. cbn.
        rewrite Hw', Htab1. repeat split; auto; try congruence.
        unfold len in *. cbn. lia.
    - exists w1, ps. repeat split; auto. }
  destruct Hstep2
    as (w2 & ps2 & Hrun2 & Hok2 & Hce2 & Hco2 & Htab2 & Htot2 & Hlp2 & Herr2
        & Hout2 & Hps2 & Hbs2).
  rewrite (bind_Return _ _ _ Hrun2), bind_modify, !bind_get.
  cbn [lines_processed set_lines_processed error_count].
  unfold bind, modify, get, when, show_progress, print, bind, get, modify.
  destruct ((lines_processed w2 + 1) mod 100000 =? 0).
  - eexists. split; [reflexivity|]. cbn. split; [|exact Hbs2].
    unfold loaded. cbn. rewrite len_app. unfold len in *. cbn [length].
    repeat split; auto; try lia.
    eexists. split; [rewrite Hout2, <- app_assoc; reflexivity|].
    apply Forall_app. split; [exact Hps2|]. now repeat constructor.
  - eexists. split; [reflexivity|]. cbn. split; [|exact Hbs2].
    unfold loaded. cbn. rewrite len_app. unfold len in *. cbn [length].
    repeat split; auto; try lia.
    now exists ps2.
Qed.

Lemma for_lines_ok w0 t0 lines :
  forall done n w,
    loaded w0 t0 done w ->
    exists w',
      for_lines n (map Line lines) w = (Return tt, w') /\
      loaded w0 t0 (done ++ lines) w'.
Proof.
  induction lines as [|l lines IH]; intros done n w H.
  - exists w. rewrite app_nil_r. now split.
  - destruct (@process_line_ok w0 t0 done n l w H) as (w1 & Hrun & H1 & _).
    destruct (IH (done ++ [l]) (n + 1) w1 H1) as (w' & Hrun' & H').
    exists w'. rewrite <- app_assoc in H'. split; [|exact H'].
    cbn [map for_lines].
    rewrite bind_Return with (a := tt) (w' := w1); [exact Hrun'|].
    unfold try_except. now rewrite Hrun.
Qed.

(** The summary as [show_final_results] prints it when the clock has
    moved and the count query succeeds, with the warning when the two
    counts differ. *)
Lemma show_final_results_ok total_lines errors w :
  total_lines <> 0 ->
  Qeq_bool (elapsed_env w) 0 = false ->
  count_env w = StmtOk ->
  show_final_results total_lines errors w
  = (Return tt,
     set_stdout
       (stdout w
        ++ summary total_lines (total_records w) errors
                   (len (working (conn w)))
        ++ (if total_records w =? len (working (conn w)) then []
            else [Difference
                    (Z.abs (total_records w - len (working (conn w))))]))
       w).
Proof.
  intros Hz Hclock Hcount. unfold show_final_results, select_count, summary.
  unfold bind, print, modify, get, when, ret, raise.
  cbn [stdout set_stdout total_records conn count_env elapsed_env].
  destruct (Z.eqb_spec total_lines 0) as [|_]; [contradiction|].
  rewrite Hclock. cbn [count_env set_stdout]. rewrite Hcount.
  cbn [conn set_stdout stdout total_records].
  destruct (total_records w =? len (working (conn w))); cbn [negb];
    cbn [stdout set_stdout]; rewrite <- ?app_assoc; reflexivity.
Qed.

(** The summary leaves the connection as it is, however it ends. *)
Lemma show_final_results_conn total_lines errors w :
  conn (snd (show_final_results total_lines errors w)) = conn w.
Proof.
  unfold show_final_results, select_count.
  unfold bind, print, modify, get, when, ret, raise.
  cbn [stdout set_stdout total_records conn count_env elapsed_env].
  destruct (total_lines =? 0); [reflexivity|].
  destruct (Qeq_bool (elapsed_env w) 0); [reflexivity|].
  cbn [count_env set_stdout].
  destruct (count_env w); [|reflexivity|reflexivity].
  destruct (negb _); reflexivity.
Qed.

Lemma keeps_Return (I : world -> Prop) (X : raised -> Prop) {A} (m : M A)
    w a w' :
  keeps I X m -> I w -> m w = (Return a, w') -> I w'.
Proof.
  intros Hm Hw Hrun. specialize (Hm w Hw). unfold post in Hm.
  now rewrite Hrun in Hm.
Qed.

(** No statement of a batch touches the clock or the outcome of the count
    query. *)
Lemma summary_env_execute_insert c e r :
  keeps (fun w => count_env w = c /\ elapsed_env w = e) any_exception
        (execute_insert r).
Proof.
  intros w H. unfold post, execute_insert.
  destruct (stmt_env w) as [|[| |] env]; cbn; auto; now split.
Qed.

(** A load whose statements and commit succeed gets as far as the summary:
    by then the transaction is committed, and the table holds the parsed
    records inserted in file order. *)
Lemma load_data_commits header lines w :
  lines <> [] ->
  all_ok (stmt_env w) ->
  commit_env w = StmtOk ->
  pending (conn w) = None ->
  exists w3 ps,
    load_data (map Line (header :: lines)) w
    = try_except
        (show_final_results (len lines)
                            (len lines - len (parsed_records lines)))
        (rollback ;; print LoadError ;; raise Error) w3 /\
    conn w3 = {| committed := insert_all (parsed_records lines)
                                         (committed (conn w));
                 pending := None |} /\
    total_records w3 = total_records w + len (parsed_records lines) /\
    Forall is_progress ps /\
    stdout w3 = stdout w ++ ps /\
    count_env w3 = count_env w /\
    elapsed_env w3 = elapsed_env w.
Proof.
  intros Hlines Hok Hce Hp. unfold load_data.
  rewrite bind_modify.
  set (w0 := set_batch_records [] _).
  unfold try_except.
  assert (Hbegin : begin_transaction w0
                   = (Return tt, set_conn (conn_write (committed (conn w0))
                                                      (conn w0)) w0)).
  { unfold begin_transaction. cbn. now rewrite Hp. }
  rewrite (bind_Return _ _ _ Hbegin).
  set (w1 := set_conn _ w0).
  cbn [map read_header]. unfold bind at 1, ret.
  assert (H1 : loaded w1 (committed (conn w)) [] w1).
  { unfold loaded, w1, w0. cbn. repeat split; auto.
    exists []. now rewrite app_nil_r. }
  destruct (@for_lines_ok w1 (committed (conn w)) lines [] 1 w1 H1)
    as (w2 & Hrun2 & Hok2 & Hce2 & Hco2 & Htab2 & Htot2 & Hlp2 & Herr2
        & ps & Hout2 & Hps).
  cbn [app] in *.
  rewrite (bind_Return _ _ _ Hrun2), bind_get.
  assert (Hflush : exists w3,
            when (nonempty (batch_records w2)) flush_batch w2 = (Return tt, w3) /\
            working (conn w3)
            = insert_all (parsed_records lines) (committed (conn w)) /\
            total_records w3 = total_records w + len (parsed_records lines) /\
            commit_env w3 = StmtOk /\ stdout w3 = stdout w ++ ps /\
            lines_processed w3 = len lines /\
            error_count w3 = len lines - len (parsed_records lines)).
  { destruct (batch_records w2) as [|r batch] eqn:Hb; cbn [nonempty when].
    - exists w2. cbn in Htab2, Htot2.
      repeat split; auto;
        first [unfold len in *; cbn in *; lia
              | rewrite Hce2; exact Hce
              | rewrite Hout2; reflexivity].
    - destruct (@flush_batch_ok w2 Hok2)
        as (w3 & Hrun3 & Hok3 & Hw3 & Hc3 & Ht3 & Hf3).
      unfold frame in Hf3. injection Hf3 as Hf1 Hf2 Hf3 Hf4 Hf5 Hf6 Hf7 Hf8.
      exists w3. rewrite Hb in *.
      repeat split; auto;
        first [congruence
              | unfold len in *; cbn in *; lia
              | rewrite Hf6, Hce2; exact Hce
              | rewrite Hf7, Hout2; reflexivity]. }
  destruct Hflush as (w3 & Hrun3 & Hw3 & Ht3 & Hce3 & Hout3 & Hlp3 & Herr3).
  rewrite (bind_Return _ _ _ Hrun3).
  assert (Hcommit : commit w3 = (Return tt, set_conn (conn_commit (conn w3)) w3)).
  { unfold commit. now rewrite Hce3. }
  rewrite (bind_Return _ _ _ Hcommit), !bind_get.
  cbn [lines_processed error_count set_conn].
  assert (Henv1 : count_env w1 = count_env w /\ elapsed_env w1 = elapsed_env w)
    by now split.
  assert (Henv2 : count_env w2 = count_env w /\ elapsed_env w2 = elapsed_env w).
  { apply (@keeps_Return
             (fun w' => count_env w' = count_env w /\ elapsed_env w' = elapsed_env w)
             any_exception _ (for_lines 1 (map Line lines))
             w1 tt w2); [|exact Henv1|exact Hrun2].
    apply keeps_for_lines_any with (X := any_exception); auto.
    intros r. apply summary_env_execute_insert. }
  assert (Henv3 : count_env w3 = count_env w /\ elapsed_env w3 = elapsed_env w).
  { apply (@keeps_Return
             (fun w' => count_env w' = count_env w /\ elapsed_env w' = elapsed_env w)
             (interrupt_only any_exception) _
             (when (nonempty (batch_records w2)) flush_batch) w2 tt w3);
      [|exact Henv2|exact Hrun3].
    apply keeps_when, keeps_flush_batch; auto.
    intros r. apply summary_env_execute_insert. }
  exists (set_conn (conn_commit (conn w3)) w3), ps.
  rewrite Hlp3, Herr3.
  split; [reflexivity|].
  cbn [conn set_conn set_stdout total_records stdout conn_commit working
         committed pending count_env elapsed_env].
  repeat split; auto; try tauto.
  unfold conn_commit. now rewrite Hw3.
Qed.

(** A load without fault: the table after the commit holds the parsed
    records inserted in file order, and the summary gives the number of
    data lines, of parsed records and of blank lines. *)
Lemma load_data_ok header lines w :
  lines <> [] ->
  all_ok (stmt_env w) ->
  commit_env w = StmtOk ->
  Qeq_bool (elapsed_env w) 0 = false ->
  count_env w = StmtOk ->
  pending (conn w) = None ->
  exists w' ps,
    load_data (map Line (header :: lines)) w = (Return tt, w') /\
    conn w' = {| committed := insert_all (parsed_records lines)
                                         (committed (conn w));
                 pending := None |} /\
    total_records w' = total_records w + len (parsed_records lines) /\
    Forall is_progress ps /\
    stdout w'
    = stdout w ++ ps
      ++ summary (len lines) (total_records w')
                 (len lines - len (parsed_records lines))
                 (len (committed (conn w')))
      ++ (if total_records w' =? len (committed (conn w')) then []
          else [Difference
                  (Z.abs (total_records w' - len (committed (conn w'))))]).
Proof.
  intros Hlines Hok Hce Hclock Hcount Hp.
  destruct (@load_data_commits header lines w Hlines Hok Hce Hp)
    as (w3 & ps & Hrun & Hconn & Htot & Hps & Hout & Hc3 & He3).
  rewrite Hrun. unfold try_except.
  rewrite show_final_results_ok.
  2:{ unfold len. destruct lines; [congruence|cbn; lia]. }
  2:{ now rewrite He3. }
  2:{ now rewrite Hc3. }
  eexists. exists ps. split; [reflexivity|].
  cbn [conn set_conn set_stdout total_records stdout].
  rewrite Hconn, Hout, Htot, <- !app_assoc. cbn [working committed pending].
  repeat split; auto.
Qed.

(** Whatever the summary does, the connection after the load is the
    committed table of the parsed records. *)
Lemma load_data_conn header lines w :
  lines <> [] ->
  all_ok (stmt_env w) ->
  commit_env w = StmtOk ->
  pending (conn w) = None ->
  conn (snd (load_data (map Line (header :: lines)) w))
  = {| committed := insert_all (parsed_records lines) (committed (conn w));
       pending := None |}.
Proof.
  intros Hlines Hok Hce Hp.
  destruct (@load_data_commits header lines w Hlines Hok Hce Hp)
    as (w3 & ps & Hrun & Hconn & _).
  rewrite Hrun. unfold try_except.
  pose proof (show_final_results_conn (len lines)
                (len lines - len (parsed_records lines)) w3) as Hsame.
  destruct (show_final_results _ _ w3) as [[[]|[|]] w4]; cbn [snd] in *.
  - now rewrite Hsame.
  - unfold rollback, bind, modify, print, raise. cbn.
    rewrite Hsame, Hconn. reflexivity.
  - now rewrite Hsame.
Qed.

(** The summary returns only when the clock has moved and the count query
    succeeds. *)
Lemma show_final_results_Return total_lines errors w w' :
  show_final_results total_lines errors w = (Return tt, w') ->
  Qeq_bool (elapsed_env w) 0 = false /\ count_env w = StmtOk.
Proof.
  unfold show_final_results, select_count.
  unfold bind, print, modify, get, when, ret, raise.
  cbn [stdout set_stdout total_records conn count_env elapsed_env].
  destruct (total_lines =? 0); [discriminate|].
  destruct (Qeq_bool (elapsed_env w) 0); [discriminate|].
  cbn [count_env set_stdout].
  destruct (count_env w); [now split|discriminate|discriminate].
Qed.

Lemma load_data_returned header lines w w' :
  lines <> [] ->
  all_ok (stmt_env w) ->
  commit_env w = StmtOk ->
  pending (conn w) = None ->
  load_data (map Line (header :: lines)) w = (Return tt, w') ->
  Qeq_bool (elapsed_env w) 0 = false /\ count_env w = StmtOk.
Proof.
  intros Hlines Hok Hce Hp Hrun.
  destruct (@load_data_commits header lines w Hlines Hok Hce Hp)
    as (w3 & ps & Hrun3 & _ & _ & _ & _ & Hc3 & He3).
  rewrite Hrun3 in Hrun. unfold try_except in Hrun.
  destruct (show_final_results _ _ w3) as [[[]|[|]] w4] eqn:Hsum.
  - apply show_final_results_Return in Hsum. now rewrite <- Hc3, <- He3.
  - unfold rollback, bind, modify, print, raise in Hrun. discriminate.
  - discriminate.
Qed.

(** ** The identifier is a key *)

Lemma unique_tables_execute_insert r :
  keeps unique_tables any_exception (execute_insert r).
Proof.
  intros w [Hc Hw]. unfold post, execute_insert, unique_tables.
  destruct (stmt_env w) as [|[| |] env]; cbn; repeat split; auto;
    now apply unique_ruc_insert.
Qed.

Lemma unique_tables_load_data file :
  keeps unique_tables any_exception (load_data file).
Proof.
  apply keeps_load_data with (X := any_exception);
    auto using unique_tables_execute_insert.
  - intros w [Hc Hw]. unfold post, begin_transaction, unique_tables.
    destruct (pending (conn w)); cbn; repeat split; auto.
  - intros w [Hc Hw]. unfold post, commit, unique_tables.
    destruct (commit_env w); cbn; repeat split; auto.
  - unfold rollback. keeps_step. intros w [Hc Hw]. now split.
Qed.

Lemma pipeline_after_create_table file w :
  guarded (pipeline file) w
  = guarded (load_data file ;; create_indexes ;; optimize_database ;;
             verify_data)
            (snd ((connect_db ;; create_table) w)).
Proof. reflexivity. Qed.

Lemma conn_commit_idle c : pending c = None -> conn_commit c = c.
Proof. destruct c as [t p]. cbn. now intros ->. Qed.

(** The connection at the end of [main] after a load that returned. *)
Lemma guarded_after_load file w1 w2 :
  load_data file w1 = (Return tt, w2) ->
  pending (conn w2) = None ->
  conn (snd (guarded (load_data file ;; create_indexes ;; optimize_database ;;
                      verify_data) w1)) = conn w2.
Proof.
  intros Hrun Hp. unfold guarded.
  rewrite (bind_Return _ _ _ Hrun).
  unfold create_indexes, optimize_database, verify_data, close.
  rewrite !bind_modify. cbn.
  rewrite !conn_commit_idle; cbn; auto.
  destruct (conn w2) as [t p]. cbn in *. now subst.
Qed.

(** The same when the load raises: the handlers of [main] print and
    close. *)
Lemma guarded_after_load_any file w1 :
  pending (conn (snd (load_data file w1))) = None ->
  conn (snd (guarded (load_data file ;; create_indexes ;; optimize_database ;;
                      verify_data) w1))
  = conn (snd (load_data file w1)).
Proof.
  intros Hp. destruct (load_data file w1) as [[[]|e] w2] eqn:Hrun.
  - cbn [snd] in *. now apply guarded_after_load.
  - cbn [snd] in *. unfold guarded, bind at 1. rewrite Hrun.
    destruct (conn w2) as [t p] eqn:Hc. cbn in Hp. subst p.
    destruct e; unfold bind, print, modify, close; cbn; now rewrite Hc.
Qed.

(** C1: in the table a run leaves, each identifier labels at most one row,
    whatever the file and whatever fails; and when the statements succeed
    and the load is not cut short, an identifier that occurs in the file
    has exactly one row, the record of its last occurrence in file
    order. *)
Theorem ruc_unique_last_occurrence_wins :
  (forall file w,
     unique_ruc (committed (conn (snd (guarded (pipeline file) w))))) /\
  (forall header lines w k r,
     all_ok (stmt_env w) ->
     commit_env w = StmtOk ->
     last_with_ruc k (parsed_records lines) = Some r ->
     rows_with_ruc k
       (committed (conn (snd (guarded (pipeline (map Line (header :: lines)))
                                      w))))
     = [r]).
Proof.
  split.
  - intros file w. rewrite pipeline_after_create_table.
    set (w1 := snd ((connect_db ;; create_table) w)).
    assert (H1 : unique_tables w1)
      by (split; intros k; unfold w1; cbn; lia).
    assert (Hclose : keeps unique_tables any_exception close).
    { unfold close. keeps_step. intros w' [Hc Hw]. now split. }
    assert (Hbody : keeps unique_tables any_exception
                      (load_data file ;; create_indexes ;;
                       optimize_database ;; verify_data)).
    { unfold create_indexes, optimize_database, verify_data.
      repeat keeps_step; auto using unique_tables_load_data;
        intros w' [Hc Hw]; now split. }
    pose proof (@keeps_guarded unique_tables _ (fun _ _ h => h) Hbody Hclose
                  w1 H1) as G.
    unfold post in G.
    destruct (guarded _ w1) as [[[]|e] w2]; cbn; [apply G|apply G].
  - intros header lines w k r Hok Hce Hlast.
    rewrite pipeline_after_create_table.
    set (w1 := snd ((connect_db ;; create_table) w)).
    assert (Hlines : lines <> []).
    { intros ->. discriminate. }
    pose proof (@load_data_conn header lines w1 Hlines Hok Hce eq_refl)
      as Hconn.
    rewrite guarded_after_load_any by now rewrite Hconn.
    rewrite Hconn. cbn [committed].
    now rewrite rows_with_ruc_insert_all, Hlast.
Qed.

Lemma ruc_unique_last_occurrence_wins_witness :
  rows_with_ruc (lit "20100")
    (committed
       (conn (snd (guarded
                     (pipeline (map Line (lit "RUC|NOMBRE|ESTADO"
                                          :: padron_with_repeat)))
                     (converter_world [])))))
  = [acme_later].
Proof.
  apply (proj2 ruc_unique_last_occurrence_wins
           (lit "RUC|NOMBRE|ESTADO") padron_with_repeat (converter_world [])
           (lit "20100") acme_later).
  - constructor.
  - reflexivity.
  - reflexivity.
Defined.

(** The connection at the end of [main] when the statements and the commit
    of the load succeed, whatever its summary does. *)
Lemma guarded_pipeline_ok header lines w :
  lines <> [] ->
  all_ok (stmt_env w) ->
  commit_env w = StmtOk ->
  conn (snd (guarded (pipeline (map Line (header :: lines))) w))
  = {| committed := insert_all (parsed_records lines) []; pending := None |}.
Proof.
  intros Hlines Hok Hce. rewrite pipeline_after_create_table.
  set (w1 := snd ((connect_db ;; create_table) w)).
  pose proof (@load_data_conn header lines w1 Hlines Hok Hce eq_refl)
    as Hconn.
  rewrite guarded_after_load_any by now rewrite Hconn.
  exact Hconn.
Qed.

(** ** The count of the table and the summary *)

Lemma failed_rows_app out out' :
  failed_rows (out ++ out') = failed_rows out + failed_rows out'.
Proof.
  induction out as [|p out IH]; [reflexivity|].
  cbn. destruct p; rewrite ?IH; lia.
Qed.

Lemma failed_rows_progress ps : Forall is_progress ps -> failed_rows ps = 0.
Proof.
  induction 1 as [|p ps Hp _ IH]; [reflexivity|].
  destruct p; try contradiction. exact IH.
Qed.

Lemma load_data_header_only header w w' :
  pending (conn w) = None ->
  load_data [Line header] w <> (Return tt, w').
Proof.
  intros Hp. unfold load_data. rewrite bind_modify.
  unfold try_except, bind at 1, begin_transaction. cbn. rewrite Hp.
  unfold bind, commit, get, when, ret. cbn.
  destruct (commit_env w); cbn; discriminate.
Qed.

(** C2, as the code has it: after a successful run in which no statement
    fails and in which the parsed records carry pairwise distinct
    identifiers, the count of the table equals the number of lines read
    less the parse errors less the failed rows, of which there are none,
    and it is the figure printed as records inserted. *)
Theorem count_matches_summary (header : str) (lines : list str)
    (w w' : world) :
  load_data (map Line (header :: lines)) w = (Return tt, w') ->
  all_ok (stmt_env w) ->
  commit_env w = StmtOk ->
  conn w = {| committed := []; pending := None |} ->
  total_records w = 0 ->
  NoDup (identifiers (parsed_records lines)) ->
  count_as_claimed lines w w' /\
  len (committed (conn w')) = len lines - parse_errors lines.
Proof.
  intros Hrun Hok Hce Hconn Htot Hnd.
  assert (Hp : pending (conn w) = None) by now rewrite Hconn.
  assert (Hlines : lines <> []).
  { intros ->. now apply (@load_data_header_only header w w' Hp). }
  destruct (@load_data_returned header lines w w' Hlines Hok Hce Hp Hrun)
    as [Hclock Hquery].
  destruct (@load_data_ok header lines w Hlines Hok Hce Hclock Hquery Hp)
    as (w2 & ps & Hrun2 & Hconn2 & Htot2 & Hps & Hout).
  rewrite Hrun in Hrun2. injection Hrun2 as <-.
  assert (Hcount : len (committed (conn w')) = len (parsed_records lines)).
  { rewrite Hconn2, Hconn. cbn [committed].
    now rewrite insert_all_fresh by exact Hnd. }
  rewrite Htot, Z.add_0_l in Htot2.
  rewrite Htot2, Hcount, Z.eqb_refl, app_nil_r in Hout.
  split.
  - eexists. split; [exact Hout|]. split.
    + rewrite failed_rows_app, failed_rows_progress by exact Hps.
      rewrite Hcount. unfold parse_errors. cbn. lia.
    + rewrite Hcount. apply in_or_app. right. cbn. auto.
  - rewrite Hcount. unfold parse_errors. lia.
Qed.

Lemma count_matches_summary_witness :
  count_as_claimed two_taxpayers (converter_world [])
                   world_after_two_taxpayers /\
  len (committed (conn world_after_two_taxpayers))
  = len two_taxpayers - parse_errors two_taxpayers.
Proof.
  apply (@count_matches_summary (lit "RUC|NOMBRE|ESTADO") two_taxpayers
           (converter_world []) world_after_two_taxpayers).
  - reflexivity.
  - constructor.
  - reflexivity.
  - reflexivity.
  - reflexivity.
  - vm_compute. repeat constructor; cbn; intuition discriminate.
Defined.

(** C2 as stated fails on a file with the same identifier on two lines:
    the run succeeds without a parse error or a failed row, the summary
    prints 2 records inserted, and the table holds 1 row. *)
Lemma count_below_summary_on_repeated_ruc :
  load_data (map Line (lit "RUC|NOMBRE|ESTADO" :: same_ruc_twice))
            (converter_world [])
  = (Return tt, world_after_same_ruc_twice) /\
  len (committed (conn world_after_same_ruc_twice)) = 1 /\
  len same_ruc_twice - parse_errors same_ruc_twice
  - failed_rows (stdout world_after_same_ruc_twice) = 2 /\
  In (RecordsInserted 2) (stdout world_after_same_ruc_twice) /\
  ~ count_as_claimed same_ruc_twice (converter_world [])
                     world_after_same_ruc_twice.
Proof.
  split; [reflexivity|]. split; [reflexivity|]. split; [reflexivity|].
  split; [cbn; auto|].
  intros (out & Hout & Hcount & _). cbn in Hout. subst out.
  vm_compute in Hcount. discriminate.
Qed.

(** The figure printed as records inserted does not subtract the rows
    that failed: with one data line whose statement fails in the batch and
    again on its own, the table is empty and the figure is 1. *)
Lemma summary_keeps_failed_rows :
  load_data (map Line [lit "RUC|NOMBRE|ESTADO"; lit "20100|ACME SA|ACTIVO"])
            (converter_world [StmtError; StmtError])
  = (Return tt, world_after_failed_row) /\
  len (committed (conn world_after_failed_row)) = 0 /\
  failed_rows (stdout world_after_failed_row) = 1 /\
  stdout world_after_failed_row
  = [BatchError; BatchInserted 0 1; TotalLines 1; RecordsInserted 1;
     ErrorLines 0; DbCount 0; Difference 1].
Proof. repeat split. Qed.

(** ** A fault after the commit *)

Lemma show_final_results_raises total_lines errors w :
  Qeq_bool (elapsed_env w) 0 = true \/ count_env w <> StmtOk ->
  exists e, fst (show_final_results total_lines errors w) = Raise e.
Proof.
  intros H. unfold show_final_results, select_count.
  unfold bind, print, modify, get, when, ret, raise.
  cbn [stdout set_stdout total_records conn count_env elapsed_env].
  destruct (total_lines =? 0); [now exists Error|].
  destruct (Qeq_bool (elapsed_env w) 0); [now exists Error|].
  cbn [count_env set_stdout].
  destruct (count_env w);
    [destruct H; [discriminate|congruence]
    |now exists Error|now exists KeyboardInterrupt].
Qed.

(** C8: the load is not all or nothing when its summary raises.  The
    summary runs after the commit and inside the [try] of [load_data]: it
    divides by the elapsed time without the test for zero that
    [show_progress] makes, and it runs a count query.  When the statements
    and the commit of a file with data lines succeed and the clock has not
    moved, or the count query fails, [load_data] raises, the rollback of its
    handler finds no transaction to undo, and the table [main] leaves in the
    database file holds every row of the run. *)
Theorem summary_fault_leaves_rows_committed (header : str)
    (lines : list str) (w : world) :
  lines <> [] ->
  all_ok (stmt_env w) ->
  commit_env w = StmtOk ->
  Qeq_bool (elapsed_env w) 0 = true \/ count_env w <> StmtOk ->
  let file := map Line (header :: lines) in
  let w1 := snd ((connect_db ;; create_table) w) in
  let final := conn (snd (guarded (pipeline file) w)) in
  (exists e, fst (load_data file w1) = Raise e) /\
  committed final = insert_all (parsed_records lines) [] /\
  pending final = None.
Proof.
  intros Hlines Hok Hce Hfault file w1 final. split.
  - destruct (@load_data_commits header lines w1 Hlines Hok Hce eq_refl)
      as (w3 & ps & Hrun & _ & _ & _ & _ & Hc3 & He3).
    unfold file. rewrite Hrun. unfold try_except.
    destruct (@show_final_results_raises (len lines)
                (len lines - len (parsed_records lines)) w3) as [e He].
    { rewrite Hc3, He3. exact Hfault. }
    destruct (show_final_results _ _ w3) as [[[]|[|]] w4];
      cbn [fst] in He; [discriminate| |now exists KeyboardInterrupt].
    exists Error. reflexivity.
  - unfold final, file.
    rewrite (@guarded_pipeline_ok header lines w Hlines Hok Hce).
    now split.
Qed.

Lemma summary_fault_leaves_rows_committed_witness :
  let file := map Line (lit "RUC|NOMBRE|ESTADO" :: two_taxpayers) in
  let w1 := snd ((connect_db ;; create_table) instant_world) in
  let final := conn (snd (guarded (pipeline file) instant_world)) in
  (exists e, fst (load_data file w1) = Raise e) /\
  committed final = insert_all (parsed_records two_taxpayers) [] /\
  pending final = None.
Proof.
  apply (@summary_fault_leaves_rows_committed (lit "RUC|NOMBRE|ESTADO")
           two_taxpayers instant_world).
  - discriminate.
  - constructor.
  - reflexivity.
  - left. reflexivity.
Defined.

(** The same run as the process sees it: the summary stops before the
    rates, the load and [main] report the error, and the two rows are in
    the database file. *)
Lemma instant_run_output :
  let file := map Line (lit "RUC|NOMBRE|ESTADO" :: two_taxpayers) in
  let final := snd (guarded (pipeline file) instant_world) in
  stdout final
  = [TotalLines 2; RecordsInserted 2; ErrorLines 0; LoadError; CriticalError]
  /\ len (committed (conn final)) = 2.
Proof. vm_compute. split; reflexivity. Qed.

(** ** The detected encoding *)

Open Scope N_scope.

Lemma between_spec lo b hi : between lo b hi = true <-> lo <= b <= hi.
Proof. unfold between. rewrite andb_true_iff, !N.leb_le. tauto. Qed.

Lemma similar_refl t : similar t t.
Proof.
  induction t as [| |c t IH]; [constructor|constructor|].
  destruct (N.lt_ge_cases c 128); [now apply similar_ascii|].
  now apply similar_high.
Qed.

Lemma similar_skip_lf t t' : similar t t' -> similar (skip_lf t) (skip_lf t').
Proof.
  unfold LF. intros H. destruct H; cbn [skip_lf]; try constructor; auto.
  - unfold LF. destruct (N.eqb_spec c 10); [assumption|now constructor].
  - unfold LF. destruct (N.eqb_spec c 10), (N.eqb_spec d 10); try lia.
    now apply similar_high.
  - unfold LF. destruct (N.eqb_spec c 10), (N.eqb_spec d 10); try lia.
    now apply similar_high_more.
Qed.

Lemma existsb_PIPE_high c line :
  128 <= c -> existsb (char_eqb PIPE) (c :: line) = existsb (char_eqb PIPE) line.
Proof.
  intros Hc. cbn [existsb]. unfold char_eqb, PIPE.
  destruct (N.eqb_spec 124 c); [lia|reflexivity].
Qed.

(** Reading a line from either text ends at the same place and finds the
    delimiter in both or in neither. *)
Lemma similar_readline t t' :
  similar t t' ->
  forall line rest,
    readline t = Some (line, rest) ->
    exists line' rest',
      readline t' = Some (line', rest') /\
      existsb (char_eqb PIPE) line' = existsb (char_eqb PIPE) line /\
      similar rest rest'.
Proof.
  induction 1 as [|t'|c t t' Hc Hs IH|c d t t' Hc Hd Hs IH
                 |c d t t' Hc Hd Hs IH]; intros line rest Hr.
  - exists line, rest. split; [exact Hr|]. split; [reflexivity|].
    cbn in Hr. injection Hr as <- <-. constructor.
  - discriminate.
  - cbn [readline] in *.
    destruct (c =? LF).
    { injection Hr as <- <-. exists [LF], t'. now repeat split. }
    destruct (c =? CR).
    { injection Hr as <- <-. exists [LF], (skip_lf t').
      repeat split. now apply similar_skip_lf. }
    destruct (readline t) as [[l r]|]; [|discriminate].
    injection Hr as <- <-.
    destruct (IH l r eq_refl) as (l' & r' & -> & He & Hsr).
    exists (c :: l'), r'. split; [reflexivity|]. split; [|exact Hsr].
    cbn. now rewrite He.
  - cbn [readline] in *. unfold LF, CR in *.
    destruct (N.eqb_spec c 10); [lia|]. destruct (N.eqb_spec c 13); [lia|].
    destruct (N.eqb_spec d 10); [lia|]. destruct (N.eqb_spec d 13); [lia|].
    destruct (readline t) as [[l r]|]; [|discriminate].
    injection Hr as <- <-.
    destruct (IH l r eq_refl) as (l' & r' & -> & He & Hsr).
    exists (d :: l'), r'. split; [reflexivity|]. split; [|exact Hsr].
    now rewrite !existsb_PIPE_high.
  - destruct (IH line rest Hr) as (l' & r' & Hr' & He & Hsr).
    cbn [readline]. unfold LF, CR.
    destruct (N.eqb_spec d 10); [lia|]. destruct (N.eqb_spec d 13); [lia|].
    rewrite Hr'. exists (d :: l'), r'. split; [reflexivity|].
    split; [|exact Hsr]. now rewrite existsb_PIPE_high.
Qed.

Lemma similar_sample_lines n :
  forall t t',
    similar t t' ->
    sample_lines n t = Some true -> sample_lines n t' = Some true.
Proof.
  induction n as [|n IH]; intros t t' Hs; [discriminate|].
  cbn [sample_lines].
  destruct (readline t) as [[line rest]|] eqn:Hr; [|discriminate].
  destruct (similar_readline Hs Hr) as (line' & rest' & -> & He & Hsr).
  rewrite He. destruct (existsb (char_eqb PIPE) line); [reflexivity|].
  now apply IH.
Qed.

(** Latin-1 gives every byte a character. *)
Lemma readline_latin1 bs : readline (decode_latin1 bs) <> None.
Proof.
  induction bs as [|b bs IH]; cbn; [discriminate|].
  destruct (_ =? LF); [discriminate|].
  destruct (_ =? CR); [discriminate|].
  destruct (readline (decode_latin1 bs)) as [[l r]|]; [discriminate|exact IH].
Qed.

Lemma readline_latin1_rest bs line rest :
  readline (decode_latin1 bs) = Some (line, rest) ->
  exists bs', rest = decode_latin1 bs'.
Proof.
  revert line. induction bs as [|b bs IH]; intros line; cbn.
  - intros [= <- <-]. now exists [].
  - destruct (_ =? LF); [intros [= <- <-]; now exists bs|].
    destruct (_ =? CR).
    + intros [= <- <-]. destruct bs as [|b' bs]; cbn; [now exists []|].
      destruct (_ =? LF); [now exists bs|now exists (b' :: bs)].
    + destruct (readline (decode_latin1 bs)) as [[l r]|]; [|discriminate].
      intros [= <- <-]. eauto.
Qed.

Lemma sample_lines_latin1 n : forall bs, sample_lines n (decode_latin1 bs) <> None.
Proof.
  induction n as [|n IH]; intros bs; cbn; [discriminate|].
  destruct (readline (decode_latin1 bs)) as [[line rest]|] eqn:Hr.
  - destruct (existsb _ line); [discriminate|].
    apply readline_latin1_rest in Hr as [bs' ->]. apply IH.
  - now apply readline_latin1 in Hr.
Qed.

Lemma cp1252_high_chars :
  Forall (fun o => match o with Some c => 128 <= c | None => True end)
         cp1252_high.
Proof. unfold cp1252_high. repeat constructor; lia. Qed.

Lemma cp1252_char_spec b c :
  cp1252_char b = Some c -> (b < 128 /\ c = b) \/ (128 <= b /\ 128 <= c).
Proof.
  unfold cp1252_char.
  destruct (N.leb_spec 128 b); cbn [andb].
  - destruct (N.ltb_spec b 160).
    + intros Hn. right. split; [assumption|].
      pose proof cp1252_high_chars as F. rewrite Forall_forall in F.
      destruct (nth_in_or_default (N.to_nat (b - 128)) cp1252_high None)
        as [Hin|Hd]; [|congruence].
      specialize (F _ Hin). now rewrite Hn in F.
    + intros [= <-]. right. lia.
  - intros [= <-]. left. lia.
Qed.

Lemma similar_cp1252 bs : similar (decode_cp1252 bs) (decode_latin1 bs).
Proof.
  induction bs as [|b bs IH]; cbn; [constructor|].
  destruct (cp1252_char (Byte.to_N b)) as [c|] eqn:Hc; [|constructor].
  apply cp1252_char_spec in Hc as [[Hb ->]|[Hb Hc]].
  - now apply similar_ascii.
  - now apply similar_high.
Qed.

Lemma utf8_second3_high b0 b1 :
  utf8_second3 b0 b1 = true -> 128 <= b1 /\ (b0 = 224 -> 160 <= b1).
Proof.
  unfold utf8_second3.
  destruct (N.eqb_spec b0 224); [|destruct (N.eqb_spec b0 237)];
    rewrite between_spec; lia.
Qed.

Lemma utf8_second4_high b0 b1 :
  utf8_second4 b0 b1 = true -> 128 <= b1 /\ (b0 = 240 -> 144 <= b1).
Proof.
  unfold utf8_second4.
  destruct (N.eqb_spec b0 240); [|destruct (N.eqb_spec b0 244)];
    rewrite between_spec; lia.
Qed.

Lemma similar_utf8_bounded n :
  forall bs, (length bs <= n)%nat ->
             similar (decode_utf8 bs) (decode_latin1 bs).
Proof.
  induction n as [|n IH]; intros bs Hlen.
  - destruct bs; [constructor|cbn in Hlen; lia].
  - destruct bs as [|x0 r0]; [constructor|].
    cbn [decode_utf8 decode_latin1]. cbn [length] in Hlen.
    destruct (N.ltb_spec (Byte.to_N x0) 128) as [Hlow|Hhigh].
    { apply similar_ascii; [exact Hlow|]. apply IH. lia. }
    destruct (between 194 (Byte.to_N x0) 223) eqn:H2.
    { destruct r0 as [|x1 r1]; [constructor|].
      destruct (between 128 (Byte.to_N x1) 191) eqn:Hc1; [|constructor].
      apply between_spec in H2, Hc1. cbn [decode_latin1 length] in *.
      apply similar_high_more; [lia|lia|].
      apply similar_high; [lia|lia|]. apply IH. lia. }
    destruct (between 224 (Byte.to_N x0) 239) eqn:H3.
    { destruct r0 as [|x1 [|x2 r2]]; try constructor.
      destruct (utf8_second3 _ _) eqn:Hs; [|constructor].
      destruct (between 128 (Byte.to_N x2) 191) eqn:Hc2; [|constructor].
      cbn [andb].
      apply utf8_second3_high in Hs.
      apply between_spec in H3, Hc2. cbn [decode_latin1 length] in *.
      apply similar_high_more; [lia|lia|].
      apply similar_high_more; [lia|lia|].
      apply similar_high; [lia|lia|]. apply IH. lia. }
    destruct (between 240 (Byte.to_N x0) 244) eqn:H4; [|constructor].
    destruct r0 as [|x1 [|x2 [|x3 r3]]]; try constructor.
    destruct (utf8_second4 _ _) eqn:Hs; [|constructor].
    destruct (between 128 (Byte.to_N x2) 191) eqn:Hc2; [|constructor].
    destruct (between 128 (Byte.to_N x3) 191) eqn:Hc3; [|constructor].
    cbn [andb].
    apply utf8_second4_high in Hs.
    apply between_spec in H4, Hc2, Hc3. cbn [decode_latin1 length] in *.
    apply similar_high_more; [lia|lia|].
    apply similar_high_more; [lia|lia|].
    apply similar_high_more; [lia|lia|].
    apply similar_high; [lia|lia|]. apply IH. lia.
Qed.

Lemma similar_utf8 bs : similar (decode_utf8 bs) (decode_latin1 bs).
Proof. now apply (@similar_utf8_bounded (length bs) bs). Qed.

Lemma similar_open_text enc content :
  similar (open_text enc content) (open_text Latin1 content).
Proof.
  destruct enc; cbn [open_text];
    auto using similar_refl, similar_cp1252, similar_utf8.
Qed.

(** C10: for every content of the input file the detector returns
    'latin-1'.  Reading as Latin-1 never raises; a candidate that finds the
    delimiter in its five lines finds it where Latin-1 finds it too, so no
    later candidate is accepted after Latin-1 was not, and the fallback is
    'latin-1' as well. *)
Theorem detect_encoding_is_latin1 (content : list Byte.byte) :
  detect_encoding content = Latin1 /\
  sample_lines 5 (open_text Latin1 content) <> None /\
  (forall enc,
     sample_lines 5 (open_text enc content) = Some true ->
     sample_lines 5 (open_text Latin1 content) = Some true).
Proof.
  assert (Hsim : forall enc,
            sample_lines 5 (open_text enc content) = Some true ->
            sample_lines 5 (open_text Latin1 content) = Some true).
  { intros enc. apply similar_sample_lines, similar_open_text. }
  split; [|split; [apply sample_lines_latin1|exact Hsim]].
  unfold detect_encoding, encodings_to_try. cbn [try_encodings].
  destruct (sample_lines 5 (open_text Latin1 content)) as [[|]|] eqn:E1;
    [reflexivity| |].
  - change (open_text Iso8859_1 content) with (open_text Latin1 content).
    rewrite E1.
    destruct (sample_lines 5 (open_text Cp1252 content)) as [[|]|] eqn:E2;
      [apply Hsim in E2; congruence| |];
      (destruct (sample_lines 5 (open_text Utf8 content)) as [[|]|] eqn:E3;
       [apply Hsim in E3; congruence|reflexivity|reflexivity]).
  - now apply sample_lines_latin1 in E1.
Qed.

Close Scope N_scope.

(** * Further properties *)

(** ** Lines and fields *)

Lemma lstrip_blank s : lstrip s = [] <-> blank s = true.
Proof.
  unfold blank. induction s as [|c s IH]; cbn; [tauto|].
  destruct (isspace c); cbn; [exact IH|]. split; discriminate.
Qed.

Lemma lstrip_head c s t : lstrip s = c :: t -> isspace c = false.
Proof.
  induction s as [|x s IH]; cbn; [discriminate|].
  destruct (isspace x) eqn:Hx; [exact IH|]. now intros [= <- _].
Qed.

Lemma blank_rev s : blank (rev s) = blank s.
Proof.
  unfold blank. induction s as [|c s IH]; [reflexivity|].
  cbn [rev]. rewrite forallb_app, IH. cbn.
  destruct (isspace c), (forallb isspace s); reflexivity.
Qed.

Lemma blank_lstrip s : blank (lstrip s) = blank s.
Proof.
  unfold blank. induction s as [|c s IH]; [reflexivity|].
  cbn. destruct (isspace c) eqn:Hc; [exact IH|]. cbn. now rewrite Hc.
Qed.

Lemma strip_blank s : strip s = [] <-> blank s = true.
Proof.
  unfold strip, rstrip. split.
  - intros H. apply (f_equal (@rev char)) in H.
    rewrite rev_involutive in H. cbn in H.
    apply lstrip_blank in H. now rewrite blank_rev, blank_lstrip in H.
  - intros H. apply lstrip_blank in H. rewrite H. reflexivity.
Qed.

(** X1: [parse_line] rejects a line exactly when the line consists of
    whitespace only (the empty line included); every other line yields a
    record. *)
Theorem parse_line_rejects_blank_lines_only (line : str) :
  parse_line line = None <-> blank line = true.
Proof.
  rewrite <- strip_blank. unfold parse_line.
  destruct (strip line); split; congruence.
Qed.

(** X2: every record [parse_line] returns has exactly fifteen values,
    however many fields the line has. *)
Theorem parse_line_record_has_15_values (line : str) (r : record) :
  parse_line line = Some r -> length r = 15%nat.
Proof.
  unfold parse_line. destruct (strip line) as [|c s]; [discriminate|].
  intros [= <-]. rewrite length_map. apply normalize_fields_length.
Qed.

Lemma parse_line_record_has_15_values_witness :
  length acme = 15%nat.
Proof.
  apply (@parse_line_record_has_15_values (lit "20100|ACME SA|ACTIVO") acme).
  reflexivity.
Defined.

(** X3: a non-blank line with exactly fifteen fields parses to the fifteen
    cleaned fields in order: nothing is padded and nothing is merged. *)
Theorem parse_line_fifteen_fields (line : str) :
  blank line = false ->
  length (split PIPE line) = 15%nat ->
  parse_line line = Some (map clean_value (split PIPE (strip line))).
Proof.
  intros Hb Hlen.
  assert (Hs : strip line <> []).
  { intros H. apply strip_blank in H. congruence. }
  rewrite (@parse_line_some line Hs). f_equal.
  rewrite <- (@split_strip_length PIPE isspace_PIPE) in Hlen.
  unfold normalize_fields. rewrite Hlen. cbn [Nat.ltb Nat.leb].
  now rewrite map_map.
Qed.

Lemma parse_line_fifteen_fields_witness :
  parse_line fifteen_fields
  = Some (map clean_value (split PIPE (strip fifteen_fields))).
Proof.
  apply (@parse_line_fifteen_fields fifteen_fields); reflexivity.
Defined.

Lemma lstrip_app_blank pre s : blank pre = true -> lstrip (pre ++ s) = lstrip s.
Proof.
  unfold blank. induction pre as [|c pre IH]; [reflexivity|].
  cbn. destruct (isspace c); [exact IH|discriminate].
Qed.

Lemma lstrip_app s x : lstrip s <> [] -> lstrip (s ++ x) = lstrip s ++ x.
Proof.
  induction s as [|c s IH]; cbn; [congruence|].
  destruct (isspace c); [exact IH|reflexivity].
Qed.

Lemma rstrip_app_blank s post :
  blank post = true -> rstrip (s ++ post) = rstrip s.
Proof.
  intros H. unfold rstrip. rewrite rev_app_distr.
  rewrite lstrip_app_blank; [reflexivity|]. now rewrite blank_rev.
Qed.

Lemma strip_padding pre s post :
  blank pre = true -> blank post = true ->
  strip (pre ++ s ++ post) = strip s.
Proof.
  intros Hpre Hpost. unfold strip. rewrite lstrip_app_blank by exact Hpre.
  destruct (lstrip s) as [|c t] eqn:Hs.
  - apply lstrip_blank in Hs.
    assert (Hall : lstrip (s ++ post) = []).
    { apply lstrip_blank. unfold blank in *. rewrite forallb_app.
      now rewrite Hs, Hpost. }
    now rewrite Hall.
  - rewrite lstrip_app by congruence. rewrite Hs.
    now apply rstrip_app_blank.
Qed.

(** X4: whitespace around a line does not change what [parse_line]
    returns; in particular the line end that file iteration leaves on each
    line never reaches the last field. *)
Theorem parse_line_ignores_padding (pre line post : str) :
  blank pre = true ->
  blank post = true ->
  parse_line (pre ++ line ++ post) = parse_line line.
Proof.
  intros Hpre Hpost. unfold parse_line.
  now rewrite (@strip_padding pre line post Hpre Hpost).
Qed.

Lemma parse_line_ignores_padding_witness :
  parse_line (lit "  " ++ lit "20100|ACME SA|ACTIVO" ++ [13; 10]%N)
  = parse_line (lit "20100|ACME SA|ACTIVO").
Proof.
  apply (@parse_line_ignores_padding (lit "  ") (lit "20100|ACME SA|ACTIVO")
           [13; 10]%N); reflexivity.
Defined.

(** ** Cleaned values *)

Lemma nopair_no_occurrence a b s :
  nopair a b s -> forall pre post, s <> pre ++ a :: b :: post.
Proof.
  intros H pre post ->. apply nopair_app in H as [_ H].
  cbn in H. destruct H as [H _]. now apply H.
Qed.

Lemma nopair_absent a b s : ~ In a s -> nopair a b s.
Proof.
  induction s as [|x s IH]; cbn; [trivial|].
  intros H. split; [|apply IH; tauto].
  destruct s; [trivial|]. intros [-> _]. tauto.
Qed.

(** X5: no value that [clean_value] returns contains U+00C3 or U+00C2, nor
    U+00E2 followed by U+20AC: none of the byte pairs the table is there
    to repair is left in the stored text. *)
Theorem clean_value_leaves_no_mojibake (v o : str) :
  clean_value v = Some o ->
  ~ In 195%N o /\ ~ In 194%N o /\
  forall pre post, o <> pre ++ 226%N :: 8364%N :: post.
Proof.
  intros Hv. apply clean_value_Some in Hv. subst o.
  destruct (apply_replacements_mojibake_free (strip v)) as (H1 & H2 & H3).
  repeat split; auto. now apply nopair_no_occurrence.
Qed.

Lemma clean_value_leaves_no_mojibake_witness :
  ~ In 195%N [65; 241; 111]%N /\ ~ In 194%N [65; 241; 111]%N /\
  forall pre post, [65; 241; 111]%N <> pre ++ 226%N :: 8364%N :: post.
Proof.
  apply (@clean_value_leaves_no_mojibake
           [32; 65; 195; 177; 111; 194]%N [65; 241; 111]%N).
  reflexivity.
Defined.

(** X6: a value that is not empty, is not the lone dash, has no whitespace
    at either end and contains none of U+00C3, U+00C2 and U+00E2 is stored
    as it is. *)
Theorem clean_value_keeps_clean_text (v : str) :
  v <> [] ->
  v <> [DASH] ->
  strip v = v ->
  ~ In 195%N v -> ~ In 194%N v -> ~ In 226%N v ->
  clean_value v = Some v.
Proof.
  intros Hne Hd Hs H195 H194 H226. unfold clean_value. rewrite Hs.
  destruct (str_eqb_spec v []) as [|_]; [contradiction|].
  destruct (str_eqb_spec v [DASH]) as [|_]; [contradiction|].
  cbn [orb]. f_equal. apply apply_replacements_fixed.
  repeat split; auto. now apply nopair_absent.
Qed.

Lemma clean_value_keeps_clean_text_witness :
  clean_value (lit "ACME S.A. - LIMA") = Some (lit "ACME S.A. - LIMA").
Proof.
  apply (@clean_value_keeps_clean_text (lit "ACME S.A. - LIMA"));
    try discriminate; try reflexivity;
    cbn; intuition discriminate.
Defined.

Lemma is_prefix_length old s :
  is_prefix old s = true -> (length old <= length s)%nat.
Proof.
  revert s; induction old as [|x old IH]; intros [|y s]; cbn;
    try lia; try discriminate.
  intros H. apply andb_true_iff in H as [_ H]. apply IH in H. lia.
Qed.

Lemma replace_from_length old new :
  old <> [] ->
  (length new <= length old)%nat ->
  forall s k, (k <= length s)%nat ->
    (length (replace_from old new k s) + k <= length s)%nat.
Proof.
  intros Hne Hlen. induction s as [|c s IH]; intros k Hk.
  - cbn in *. lia.
  - cbn [replace_from]. destruct k as [|k].
    + destruct (is_prefix old (c :: s)) eqn:Hp.
      * apply is_prefix_length in Hp. cbn [length] in *.
        assert (Ho : (length old <> 0)%nat) by (destruct old; cbn; congruence).
        specialize (IH (length old - 1)%nat). rewrite length_app.
        assert (length old - 1 <= length s)%nat by lia.
        specialize (IH H). lia.
      * cbn [length]. specialize (IH 0%nat). lia.
    + cbn [length] in *. specialize (IH k). lia.
Qed.

Lemma replace_length old new s :
  old <> [] ->
  (length new <= length old)%nat ->
  (length (replace old new s) <= length s)%nat.
Proof.
  intros Hne Hlen. unfold replace.
  pose proof (@replace_from_length old new Hne Hlen s 0%nat). lia.
Qed.

Lemma replacements_shrink :
  Forall (fun wc : str * str =>
            fst wc <> [] /\ (length (snd wc) <= length (fst wc))%nat)
         replacements.
Proof. unfold replacements. repeat constructor; cbn; try discriminate; lia. Qed.

Lemma fold_replace_length table :
  Forall (fun wc : str * str =>
            fst wc <> [] /\ (length (snd wc) <= length (fst wc))%nat)
         table ->
  forall s,
    (length (fold_left (fun cleaned wc => replace (fst wc) (snd wc) cleaned)
                       table s) <= length s)%nat.
Proof.
  induction 1 as [|wc table [Hne Hlen] _ IH]; intros s; cbn [fold_left];
    [lia|].
  etransitivity; [apply IH|]. now apply replace_length.
Qed.

Lemma lstrip_length s : (length (lstrip s) <= length s)%nat.
Proof.
  induction s as [|c s IH]; cbn; [lia|]. destruct (isspace c); cbn; lia.
Qed.

Lemma strip_length s : (length (strip s) <= length s)%nat.
Proof.
  unfold strip, rstrip. rewrite length_rev.
  etransitivity; [apply lstrip_length|]. rewrite length_rev.
  apply lstrip_length.
Qed.

(** X7: cleaning never makes a value longer: every rule of the table
    replaces a sequence by one that is not longer, after the trimming. *)
Theorem clean_value_not_longer (v o : str) :
  clean_value v = Some o -> (length o <= length v)%nat.
Proof.
  intros Hv. apply clean_value_Some in Hv. subst o.
  unfold apply_replacements.
  etransitivity; [apply (fold_replace_length replacements_shrink)|].
  apply strip_length.
Qed.

Lemma clean_value_not_longer_witness :
  (length [65; 241; 111]%N <= length [32; 65; 195; 177; 111; 194]%N)%nat.
Proof.
  apply (@clean_value_not_longer
           [32; 65; 195; 177; 111; 194]%N [65; 241; 111]%N).
  reflexivity.
Defined.

(** X8: the last two rules of the table, for U+00E2 U+20AC U+00A2 and for
    U+00E2 U+20AC U+00A6, never apply: the rule for U+00E2 U+20AC comes
    before them in the dict and leaves no such pair, so the pass is the
    pass of the first eleven rules. *)
Theorem last_two_replacements_never_apply (s : str) :
  apply_replacements s
  = fold_left (fun cleaned wc => replace (fst wc) (snd wc) cleaned)
              (firstn 11 replacements) s.
Proof.
  unfold apply_replacements, replacements. cbn [fold_left fst snd firstn].
  match goal with
  | |- context [replace [226%N; 8364%N] [34%N] ?x] =>
      set (s11 := replace [226%N; 8364%N] [34%N] x)
  end.
  assert (H11 : nopair 226%N 8364%N s11)
    by (apply replace_pair_nopair; lia).
  rewrite (@replace_free _ _ s11) by now apply free_nopair.
  rewrite (@replace_free _ _ s11) by now apply free_nopair.
  reflexivity.
Qed.

(** ** The counters of a load *)

Lemma post_bind_eq {A B} (m : M A) (k : A -> M B) w a w1 Q E :
  m w = (Return a, w1) -> post (k a) w1 Q E -> post (bind m k) w Q E.
Proof. intros Hm Hk. unfold post in *. now rewrite (bind_Return _ _ _ Hm). Qed.

Lemma locals_execute_insert l r :
  keeps (fun w => locals w = l) any_exception (execute_insert r).
Proof.
  intros w H. pose proof (execute_insert_locals r w) as L. cbv zeta in L.
  unfold post. unfold locals in *.
  destruct (execute_insert r w) as [[a|e] w']; cbn [snd] in L;
    destruct L as (L1 & L2 & L3 & L4 & L5 & L6 & _);
    rewrite L1, L2, L3, L4, L5, L6; [exact H|now split].
Qed.

(** [flush_batch] adds the length of the batch to the record counter and
    leaves the other variables, whatever the statements do. *)
Lemma flush_batch_locals w :
  post flush_batch w
       (fun _ w' =>
          locals w'
          = (batch_size w, batch_records w, lines_processed w, batch_count w,
             error_count w, total_records w + len (batch_records w)))
       (fun e _ => e = KeyboardInterrupt).
Proof.
  unfold flush_batch. apply post_bind, post_get, post_bind.
  eapply post_mono.
  - apply (@keeps_insert_batch (fun w' => locals w' = locals w) any_exception).
    + intros v w' H. exact H.
    + intros r. apply locals_execute_insert.
    + reflexivity.
  - intros ? w' H. apply post_modify. unfold locals in *. cbn.
    injection H as -> -> -> -> -> ->. reflexivity.
  - intros e w' [_ [He _]]. exact He.
Qed.

Lemma parse_errors_app lines lines' :
  parse_errors (lines ++ lines') = parse_errors lines + parse_errors lines'.
Proof.
  unfold parse_errors. rewrite parsed_records_app, !len_app. lia.
Qed.

Lemma tracked_process_line w0 done n line w :
  tracked w0 done w ->
  post (process_line n line) w
       (fun _ => tracked w0 (done ++ [line]))
       (fun e _ => e = KeyboardInterrupt).
Proof.
  intros (Hbs & Hlp & Herr & Htot & Hpace).
  unfold process_line.
  set (w1 := match parse_line line with
             | Some r => set_batch_records (batch_records w ++ [r]) w
             | None => set_error_count (error_count w + 1) w
             end).
  assert (Hstep1 :
            (match parse_line line with
             | Some r =>
                 if nonempty r
                 then modify (fun w => set_batch_records
                                         (batch_records w ++ [r]) w)
                 else modify (fun w => set_error_count (error_count w + 1) w)
             | None => modify (fun w => set_error_count (error_count w + 1) w)
             end) w = (Return tt, w1)).
  { unfold w1. destruct (parse_line line) as [r|] eqn:Hp; [|reflexivity].
    now rewrite (parse_line_nonempty _ Hp). }
  eapply post_bind_eq; [exact Hstep1|]. clear Hstep1.
  assert (H1 : batch_size w1 = batch_size w0 /\
               lines_processed w1 = lines_processed w0 + len done /\
               error_count w1 = error_count w0 + parse_errors (done ++ [line]) /\
               total_records w1 + len (batch_records w1)
               = total_records w0 + len (batch_records w0)
                 + len (parsed_records (done ++ [line])) /\
               batch_count w1 = batch_count w /\
               total_records w1 = total_records w /\
               (0 < batch_size w0 -> len (batch_records w0) < batch_size w0 ->
                len (batch_records w1) <= batch_size w0)).
  { rewrite parse_errors_app, parsed_records_app. unfold w1.
    unfold parse_errors in *.
    cbn [parsed_records].
    destruct (parse_line line) as [r|]; cbn;
      rewrite ?len_app; unfold len in *; cbn; repeat split; auto; try lia;
      try (intros Hp Hb; specialize (Hpace Hp Hb); lia). }
  clearbody w1.
  destruct H1 as (Hbs1 & Hlp1 & Herr1 & Htot1 & Hbc1 & Htr1 & Hle1).
  apply post_bind, post_get.
  (* the rest of the body, from the state after the flush *)
  assert (Hrest : forall w2,
            batch_size w2 = batch_size w0 ->
            lines_processed w2 = lines_processed w0 + len done ->
            error_count w2 = error_count w0 + parse_errors (done ++ [line]) ->
            total_records w2 + len (batch_records w2)
            = total_records w0 + len (batch_records w0)
              + len (parsed_records (done ++ [line])) ->
            (0 < batch_size w0 -> len (batch_records w0) < batch_size w0 ->
             len (batch_records w2) < batch_size w0 /\
             total_records w2 - total_records w0
             = batch_size w0 * (batch_count w2 - batch_count w0)) ->
            post (modify (fun w => set_lines_processed
                                     (lines_processed w + 1) w) ;;
                  processed <- get lines_processed ;;
                  errors <- get error_count ;;
                  when (processed mod 100000 =? 0)
                       (show_progress processed errors)) w2
                 (fun _ => tracked w0 (done ++ [line]))
                 (fun e _ => e = KeyboardInterrupt)).
  { intros w2 Hbs2 Hlp2 Herr2 Htot2 Hpace2.
    apply post_bind, post_modify, post_bind, post_get, post_bind, post_get.
    cbn [lines_processed set_lines_processed error_count].
    apply post_when.
    assert (Hend : forall out,
              tracked w0 (done ++ [line])
                (set_stdout out
                   (set_lines_processed (lines_processed w2 + 1) w2))).
    { intros out. unfold tracked. cbn. rewrite len_app.
      unfold len in *. cbn [length]. repeat split; auto; try lia;
        now apply Hpace2. }
    destruct (_ =? 0).
    - unfold show_progress. repeat post_step. apply Hend.
    - specialize (Hend (stdout w2)).
      now replace (set_stdout (stdout w2)
                     (set_lines_processed (lines_processed w2 + 1) w2))
        with (set_lines_processed (lines_processed w2 + 1) w2) in Hend
        by reflexivity. }
  apply post_bind, post_when.
  destruct (Z.leb_spec (batch_size w1) (len (batch_records w1))) as [Hfull|Hnot].
  - apply post_bind. eapply post_mono; [apply flush_batch_locals| |auto].
    intros ? w2 H2. unfold locals in H2.
    injection H2 as Hb2 Hr2 Hl2 Hc2 He2 Ht2.
    apply post_bind, post_modify, post_bind, post_get, post_bind, post_get,
      post_bind, post_when.
    cbn [batch_count set_batch_count error_count].
    assert (Hafter : forall out,
              post (modify (set_batch_records []))
                (set_stdout out (set_batch_count (batch_count w2 + 1) w2))
                (fun _ w3 =>
                   post (modify (fun w => set_lines_processed
                                            (lines_processed w + 1) w) ;;
                         processed <- get lines_processed ;;
                         errors <- get error_count ;;
                         when (processed mod 100000 =? 0)
                              (show_progress processed errors)) w3
                        (fun _ => tracked w0 (done ++ [line]))
                        (fun e _ => e = KeyboardInterrupt))
                (fun e _ => e = KeyboardInterrupt)).
    { intros out. apply post_modify. apply Hrest; cbn; try congruence.
      - unfold len in *. cbn. lia.
      - intros Hp Hb. specialize (Hle1 Hp Hb). specialize (Hpace Hp Hb).
        unfold len in *. cbn. split; [lia|].
        assert (Z.of_nat (length (batch_records w1)) = batch_size w0) by lia.
        rewrite Ht2, Hc2, Hbc1, Htr1. nia. }
    destruct (_ =? 0).
    + unfold show_progress. apply post_bind, post_get, post_print.
      apply Hafter.
    + apply (Hafter (stdout w2)).
  - apply Hrest; auto.
    intros Hp Hb. destruct (Hpace Hp Hb) as [_ Hq]. split; [lia|].
    rewrite Htr1, Hbc1. exact Hq.
Qed.

Lemma tracked_for_lines w0 lines :
  forall done n w,
    tracked w0 done w ->
    post (for_lines n (map Line lines)) w
         (fun _ => tracked w0 (done ++ lines))
         (fun e _ => e = KeyboardInterrupt).
Proof.
  induction lines as [|l lines IH]; intros done n w H.
  - cbn. now rewrite app_nil_r.
  - cbn [map for_lines]. apply post_bind, post_try.
    eapply post_mono; [apply (tracked_process_line n l H)| |].
    + intros ? w1 H1. eapply post_mono; [apply (IH _ _ _ H1)| |auto].
      intros ? w2 H2. now rewrite <- app_assoc in H2.
    + intros e w1 ->. reflexivity.
Qed.

(** ** What a load that returns has counted *)

Lemma parse_errors_blank lines : parse_errors lines = blank_lines lines.
Proof.
  unfold parse_errors, blank_lines, len.
  induction lines as [|l lines IH]; [reflexivity|].
  cbn [parsed_records filter length].
  destruct (parse_line l) as [r|] eqn:Hp.
  - destruct (blank l) eqn:Hb.
    + apply strip_blank in Hb. unfold parse_line in Hp. rewrite Hb in Hp.
      discriminate.
    + cbn [length]. lia.
  - destruct (blank l) eqn:Hb.
    + cbn [length]. lia.
    + unfold parse_line in Hp. destruct (strip l) eqn:Hs; [|discriminate].
      apply strip_blank in Hs. congruence.
Qed.

Lemma tracked_start w : tracked w [] w.
Proof.
  unfold tracked, parse_errors, len. cbn. repeat split; try lia; tauto.
Qed.

Lemma load_data_counted header lines w :
  post (load_data (map Line (header :: lines))) w
       (fun _ => counted lines w) (fun _ _ => True).
Proof.
  unfold load_data. apply post_bind, post_modify.
  set (w0 := set_batch_records [] _).
  apply post_try.
  eapply post_mono with (Q' := fun _ => counted lines w)
                        (E' := fun _ _ => True).
  2: { auto. }
  2: { intros [|] w' _; [|exact I]. unfold rollback. repeat post_step.
       exact I. }
  apply post_bind. unfold post at 1, begin_transaction.
  destruct (pending (conn w0)); [exact I|].
  set (w1 := set_conn _ w0).
  cbn [map read_header]. apply post_bind, post_ret, post_bind.
  eapply post_mono;
    [apply (@tracked_for_lines w1 lines [] 1 w1 (tracked_start w1))| |auto].
  cbn [app]. intros ? w2 (Hbs & Hlp & Herr & Htot & Hpace).
  change (batch_size w1) with (batch_size w) in *.
  change (lines_processed w1) with 0 in *.
  change (error_count w1) with 0 in *.
  change (total_records w1) with (total_records w) in *.
  change (batch_records w1) with (@nil record) in *.
  change (batch_count w1) with 0 in *.
  clearbody w1. clear w0.
  assert (Hfin : forall w3,
            batch_size w3 = batch_size w ->
            batch_records w3 = batch_records w2 ->
            lines_processed w3 = lines_processed w2 ->
            batch_count w3 = batch_count w2 ->
            error_count w3 = error_count w2 ->
            total_records w3 = total_records w2 + len (batch_records w2) ->
            post (commit ;;
                  total_lines <- get lines_processed ;;
                  errors <- get error_count ;;
                  show_final_results total_lines errors) w3
                 (fun _ => counted lines w) (fun _ _ => True)).
  { intros w3 Hb3 Hr3 Hl3 Hc3 He3 Ht3.
    apply post_bind. unfold post at 1, commit.
    destruct (commit_env w3); [|exact I|exact I].
    apply post_bind, post_get, post_bind, post_get.
    unfold show_final_results. repeat post_step.
    cbn [lines_processed set_conn set_stdout error_count total_records
         elapsed_env].
    destruct (Z.eqb_spec (lines_processed w3) 0) as [Hz|Hnz];
      [apply post_raise; exact I|].
    repeat post_step.
    destruct (Qeq_bool (elapsed_env w3) 0); [apply post_raise; exact I|].
    repeat post_step.
    unfold post at 1, select_count. cbn [count_env set_stdout set_conn].
    destruct (count_env w3); [|exact I|exact I].
    repeat post_step.
    assert (Hgoal : forall w4,
              locals w4 = locals w3 ->
              conn w4 = conn_commit (conn w3) ->
              stdout w4
              = stdout w3
                ++ summary (lines_processed w3) (total_records w3)
                     (error_count w3) (len (working (conn_commit (conn w3))))
                ++ (if total_records w3
                       =? len (working (conn_commit (conn w3)))
                    then []
                    else [Difference
                            (Z.abs (total_records w3
                                    - len (working (conn_commit (conn w3)))))]) ->
              counted lines w w4).
    { intros w4 HL Hc Ho. unfold locals in HL.
      injection HL as L1 L2 L3 L4 L5 L6.
      unfold counted, final_report. rewrite Hc, Ho, L1, L2, L3, L4, L5, L6.
      change (committed (conn_commit (conn w3)))
        with (working (conn_commit (conn w3))).
      rewrite Hl3, He3, Ht3, Hb3, Hr3, Hc3 in *.
      unfold len in *. cbn [length] in *.
      repeat split; try lia.
      all: try (destruct Hpace as [Hlt Hq]; [lia|lia|];
                rewrite ?Z.sub_0_r in Hq; lia).
      exists (stdout w3). rewrite Hlp, Herr. unfold parse_errors, len.
      repeat f_equal; lia. }
    cbn [stdout set_stdout set_conn conn total_records].
    destruct (Z.eqb_spec (total_records w3)
                (len (working (conn_commit (conn w3))))) as [He|Hne];
      cbn [negb]; repeat post_step; apply Hgoal; try reflexivity;
      cbn [stdout set_stdout set_conn]; rewrite <- !app_assoc; reflexivity. }
  apply post_bind, post_get, post_bind, post_when.
  destruct (batch_records w2) as [|r b2] eqn:Hb2; cbn [nonempty].
  - apply Hfin; auto. unfold len. cbn. lia.
  - eapply post_mono; [apply flush_batch_locals| |auto].
    intros ? w3 H3. unfold locals in H3. rewrite Hb2 in H3.
    injection H3 as E1 E2 E3 E4 E5 E6.
    apply Hfin; congruence.
Qed.

(** X9: whatever the statements of a load do, a load that returns has
    read at least one data line and ends its output with the summary: the
    lines in total are the data lines, the lines with errors are the data
    lines of whitespace only, and the records inserted are the previous
    counter plus every other data line, whether its row was written or
    not; the warning follows exactly when that counter differs from the
    count of the table. *)
Theorem load_data_summary_counts (header : str) (lines : list str)
    (w w' : world) :
  load_data (map Line (header :: lines)) w = (Return tt, w') ->
  lines <> [] /\
  total_records w' = total_records w + (len lines - blank_lines lines) /\
  exists pre,
    stdout w' = pre ++ final_report w' (len lines) (blank_lines lines).
Proof.
  intros Hrun. pose proof (load_data_counted header lines w) as H.
  unfold post in H. rewrite Hrun in H.
  destruct H as (Hlp & Hnz & _ & Htot & _ & _ & pre & Hout).
  rewrite <- parse_errors_blank. repeat split.
  - intros ->. apply Hnz. now rewrite Hlp.
  - rewrite Htot. unfold parse_errors. lia.
  - now exists pre.
Qed.

Lemma load_data_summary_counts_witness :
  [lit "20100|ACME SA|ACTIVO"] <> [] /\
  total_records world_after_failed_row
  = total_records (converter_world [StmtError; StmtError])
    + (len [lit "20100|ACME SA|ACTIVO"]
       - blank_lines [lit "20100|ACME SA|ACTIVO"]) /\
  exists pre,
    stdout world_after_failed_row
    = pre ++ final_report world_after_failed_row
               (len [lit "20100|ACME SA|ACTIVO"])
               (blank_lines [lit "20100|ACME SA|ACTIVO"]).
Proof.
  apply (@load_data_summary_counts (lit "RUC|NOMBRE|ESTADO")
           [lit "20100|ACME SA|ACTIVO"]
           (converter_world [StmtError; StmtError])
           world_after_failed_row).
  reflexivity.
Defined.

(** X10: with a positive batch size, a load that returns has sent one full
    batch for every [batch_size] records parsed, and the last batch, sent
    after the loop, holds the remainder: the batch counter is the quotient
    and the length of the last batch is the remainder of the number of
    parsed records by the batch size. *)
Theorem load_data_batches (header : str) (lines : list str) (w w' : world) :
  0 < batch_size w ->
  load_data (map Line (header :: lines)) w = (Return tt, w') ->
  batch_count w' = len (parsed_records lines) / batch_size w /\
  len (batch_records w') = len (parsed_records lines) mod batch_size w.
Proof.
  intros Hpos Hrun. pose proof (load_data_counted header lines w) as H.
  unfold post in H. rewrite Hrun in H.
  destruct H as (_ & _ & _ & _ & _ & Hpace & _).
  destruct (Hpace Hpos) as [Hlt Hq].
  assert (H0 : 0 <= len (batch_records w')) by (unfold len; lia).
  split.
  - apply Z.div_unique with (r := len (batch_records w')); lia.
  - apply Z.mod_unique with (q := batch_count w'); lia.
Qed.

Lemma load_data_batches_witness :
  batch_count flaky_world_after_load
  = len (parsed_records padron_with_repeat) / batch_size flaky_world /\
  len (batch_records flaky_world_after_load)
  = len (parsed_records padron_with_repeat) mod batch_size flaky_world.
Proof.
  apply (@load_data_batches (lit "RUC|NOMBRE|ESTADO") padron_with_repeat
           flaky_world flaky_world_after_load).
  - reflexivity.
  - reflexivity.
Defined.

(** ** A file without data lines *)

(** X11: a file without data lines, empty or with the header only, makes
    [load_data] raise although no read and no statement fails: the summary
    is printed up to the lines with errors, the success rate divides by
    zero, and the load is reported as failed.  The connection is left
    outside any transaction on the committed table it started from. *)
Theorem load_data_without_data_lines (file : list str) (w : world) :
  (length file <= 1)%nat ->
  pending (conn w) = None ->
  commit_env w = StmtOk ->
  exists w',
    load_data (map Line file) w = (Raise Error, w') /\
    conn w' = conn w /\
    stdout w'
    = stdout w ++ [TotalLines 0; RecordsInserted (total_records w);
                   ErrorLines 0; LoadError].
Proof.
  intros Hlen Hp Hc.
  assert (Hconn : {| committed := committed (conn w); pending := None |}
                  = conn w).
  { destruct (conn w) as [t p]. cbn in *. now subst. }
  destruct file as [|header [|l file]]; [| |cbn in Hlen; lia].
  - unfold load_data. rewrite bind_modify.
    unfold try_except, bind at 1, begin_transaction. cbn. rewrite Hp.
    unfold bind, commit, get, when, ret. cbn. rewrite Hc. cbn.
    eexists. split; [reflexivity|]. cbn.
    split; [exact Hconn|]. now rewrite <- !app_assoc.
  - unfold load_data. rewrite bind_modify.
    unfold try_except, bind at 1, begin_transaction. cbn. rewrite Hp.
    unfold bind, commit, get, when, ret. cbn. rewrite Hc. cbn.
    eexists. split; [reflexivity|]. cbn.
    split; [exact Hconn|]. now rewrite <- !app_assoc.
Qed.

Lemma load_data_without_data_lines_witness :
  exists w',
    load_data (map Line [lit "RUC|NOMBRE|ESTADO"]) used_world
    = (Raise Error, w') /\
    conn w' = conn used_world /\
    stdout w'
    = stdout used_world
      ++ [TotalLines 0; RecordsInserted (total_records used_world);
          ErrorLines 0; LoadError].
Proof.
  apply (@load_data_without_data_lines [lit "RUC|NOMBRE|ESTADO"] used_world).
  - cbn. lia.
  - reflexivity.
  - reflexivity.
Defined.

(** ** The checks of [main] before the run *)

(** X12: when the file is missing, when less than half a GiB is free or
    when the answer is not [s] or [S], [main] returns without touching
    the database: the connection and the statement outcomes still to come
    are as before. *)
Theorem main_cancelled_leaves_database (p : process) (w : world) :
  file_exists p = false \/ available p * 2 < GiB
  \/ confirmed (answer p) = false ->
  fst (main p w) = Return tt /\
  conn (snd (main p w)) = conn w /\
  stmt_env (snd (main p w)) = stmt_env w.
Proof.
  intros H. unfold main.
  destruct (file_exists p); cbn [negb]; [|now repeat split].
  unfold check_memory, bind, modify, when, ret. cbv beta.
  rewrite available_gb_below_one.
  destruct (available p <? GiB); cbv beta iota;
    rewrite available_gb_below_half;
    (destruct (Z.ltb_spec (available p * 2) GiB) as [Hhalf|Hhalf];
     [now repeat split|]);
    (destruct (confirmed (answer p)); cbn [negb]; [|now repeat split]);
    exfalso; destruct H as [H|[H|H]]; try discriminate; lia.
Qed.

Lemma main_cancelled_leaves_database_witness :
  fst (main declined_process used_world) = Return tt /\
  conn (snd (main declined_process used_world)) = conn used_world /\
  stmt_env (snd (main declined_process used_world)) = stmt_env used_world.
Proof.
  apply (@main_cancelled_leaves_database declined_process used_world).
  right. right. reflexivity.
Defined.

(** X13: with the file present and at least 1 GiB free, the batch size of
    the converter stays the 30000 that [main] passes: it is the batch size
    at the start of the steps of the run and still when [main] ends. *)
Theorem ample_memory_keeps_batch_size (p : process) (w : world) :
  file_exists p = true ->
  GiB <= available p ->
  batch_size (snd (main p w)) = BATCH_SIZE /\
  (confirmed (answer p) = true ->
   exists w1,
     batch_size w1 = BATCH_SIZE /\
     main p w = guarded (pipeline (padron p)) w1).
Proof.
  intros Hfile Hmem. unfold main. rewrite Hfile. cbn [negb].
  assert (HG : GiB = 1073741824) by reflexivity.
  unfold check_memory, bind, modify, when, ret. cbv beta.
  rewrite available_gb_below_one.
  destruct (Z.ltb_spec (available p) GiB) as [|_]; [lia|].
  cbv beta iota. rewrite available_gb_below_half.
  set (w1 := set_encoding _ _).
  assert (H1 : batch_size w1 = BATCH_SIZE) by reflexivity.
  destruct (Z.ltb_spec (available p * 2) GiB) as [Hhalf|_]; [lia|].
  destruct (confirmed (answer p)); cbn [negb].
  - split; [|intros _; now exists w1].
    assert (Hc : keeps (fun w => batch_size w = BATCH_SIZE) any_exception
                       close)
      by (unfold close; now keeps_step).
    pose proof (@keeps_guarded (fun w => batch_size w = BATCH_SIZE)
                  (pipeline (padron p)) (fun _ _ H => H)
                  (@batch_size_pipeline BATCH_SIZE (padron p)) Hc w1 H1) as G.
    unfold post in G.
    destruct (guarded (pipeline (padron p)) w1) as [[[]|e] w2];
      [exact G|exact (proj1 G)].
  - split; [exact H1|]. intros [=].
Qed.

Lemma ample_memory_keeps_batch_size_witness :
  batch_size (snd (main ample_memory_process fresh_world)) = BATCH_SIZE /\
  (confirmed (answer ample_memory_process) = true ->
   exists w1,
     batch_size w1 = BATCH_SIZE /\
     main ample_memory_process fresh_world
     = guarded (pipeline (padron ample_memory_process)) w1).
Proof.
  apply (ample_memory_keeps_batch_size ample_memory_process fresh_world).
  - reflexivity.
  - vm_compute. discriminate.
Defined.

(** ** The table of a run without faults *)

(** X14: when no statement fails and the commit succeeds, a run over a
    file with at least one data line leaves exactly the records parsed
    from the data lines, inserted in file order into an empty table,
    outside any transaction: the header, the batch size, the counters and
    the previous content of the database have no part in it. *)
Theorem fault_free_run_builds_table (header : str) (lines : list str)
    (w : world) :
  lines <> [] ->
  all_ok (stmt_env w) ->
  commit_env w = StmtOk ->
  let final := conn (snd (guarded (pipeline (map Line (header :: lines))) w)) in
  committed final = insert_all (parsed_records lines) [] /\
  pending final = None.
Proof.
  intros Hlines Hok Hce final. unfold final.
  rewrite (@guarded_pipeline_ok header lines w Hlines Hok Hce).
  now split.
Qed.

Lemma fault_free_run_builds_table_witness :
  let final :=
    conn (snd (guarded (pipeline (map Line (lit "RUC|NOMBRE|ESTADO"
                                            :: padron_with_repeat)))
                       used_world)) in
  committed final = insert_all (parsed_records padron_with_repeat) [] /\
  pending final = None.
Proof.
  apply (@fault_free_run_builds_table (lit "RUC|NOMBRE|ESTADO")
           padron_with_repeat used_world).
  - discriminate.
  - constructor.
  - reflexivity.
Defined.

Lemma no_ruc_has_ruc k r : no_ruc r = true -> has_ruc k r = false.
Proof. unfold no_ruc, has_ruc. now destruct (ruc r). Qed.

Lemma filter_no_ruc_other k t :
  filter no_ruc (filter (fun row => negb (has_ruc k row)) t)
  = filter no_ruc t.
Proof.
  induction t as [|x t IH]; [reflexivity|].
  cbn [filter]. destruct (no_ruc x) eqn:Hx.
  - rewrite (no_ruc_has_ruc k _ Hx). cbn [negb filter]. rewrite Hx.
    now f_equal.
  - destruct (has_ruc k x); cbn [negb filter]; [exact IH|].
    now rewrite Hx.
Qed.

Lemma filter_no_ruc_insert r t :
  filter no_ruc (insert_or_replace r t) = filter no_ruc t ++ filter no_ruc [r].
Proof.
  unfold insert_or_replace. destruct (ruc r) as [k|] eqn:Hk.
  - now rewrite filter_app, filter_no_ruc_other.
  - now rewrite filter_app.
Qed.

Lemma filter_no_ruc_insert_all rows t :
  filter no_ruc (insert_all rows t) = filter no_ruc t ++ filter no_ruc rows.
Proof.
  induction rows as [|r rows IH] using rev_ind.
  - cbn. now rewrite app_nil_r.
  - now rewrite insert_all_snoc, filter_no_ruc_insert, IH, filter_app,
      app_assoc.
Qed.

(** X15: records without identifier never replace one another: after a
    run without faults, the rows of the table whose identifier is NULL are
    the parsed records without identifier, every one of them and in file
    order. *)
Theorem rows_without_ruc_are_all_kept (header : str) (lines : list str)
    (w : world) :
  lines <> [] ->
  all_ok (stmt_env w) ->
  commit_env w = StmtOk ->
  filter no_ruc
    (committed (conn (snd (guarded (pipeline (map Line (header :: lines)))
                                   w))))
  = filter no_ruc (parsed_records lines).
Proof.
  intros Hlines Hok Hce.
  rewrite (@guarded_pipeline_ok header lines w Hlines Hok Hce).
  cbn [committed]. now rewrite filter_no_ruc_insert_all.
Qed.

Lemma rows_without_ruc_are_all_kept_witness :
  filter no_ruc
    (committed (conn (snd (guarded
                             (pipeline (map Line (lit "RUC|NOMBRE|ESTADO"
                                                  :: padron_without_ruc)))
                             used_world))))
  = filter no_ruc (parsed_records padron_without_ruc).
Proof.
  apply (@rows_without_ruc_are_all_kept (lit "RUC|NOMBRE|ESTADO")
           padron_without_ruc used_world).
  - discriminate.
  - constructor.
  - reflexivity.
Defined.

Lemma identifiers_other k t :
  identifiers (filter (fun row => negb (has_ruc k row)) t)
  = remove str_eq_dec k (identifiers t).
Proof.
  induction t as [|x t IH]; [reflexivity|].
  change (x :: t) with ([x] ++ t) at 2. rewrite identifiers_app, remove_app.
  cbn [filter]. unfold identifiers at 2. cbn [flat_map]. rewrite app_nil_r.
  destruct (has_ruc k x) eqn:Hx; cbn [negb].
  - apply has_ruc_true in Hx. rewrite Hx. cbn [remove].
    destruct (str_eq_dec k k); [exact IH|contradiction].
  - change (x :: filter (fun row => negb (has_ruc k row)) t)
      with ([x] ++ filter (fun row => negb (has_ruc k row)) t).
    rewrite identifiers_app, IH. f_equal.
    unfold identifiers. cbn [flat_map]. rewrite app_nil_r.
    destruct (ruc x) as [k'|] eqn:Hk; [|reflexivity].
    cbn [remove]. destruct (str_eq_dec k k') as [->|]; [|reflexivity].
    assert (has_ruc k' x = true) by now apply has_ruc_true.
    congruence.
Qed.

Lemma identifiers_insert r t :
  identifiers (insert_or_replace r t)
  = match ruc r with
    | Some k => remove str_eq_dec k (identifiers t) ++ [k]
    | None => identifiers t
    end.
Proof.
  unfold insert_or_replace. destruct (ruc r) as [k|] eqn:Hk;
    rewrite identifiers_app; unfold identifiers at 2; cbn [flat_map];
    rewrite Hk, app_nil_r.
  - now rewrite identifiers_other.
  - rewrite ?app_nil_r. reflexivity.
Qed.

Lemma NoDup_remove_snoc k (l : list str) :
  NoDup l -> NoDup (remove str_eq_dec k l ++ [k]).
Proof.
  intros H. induction H as [|x l Hx H IH]; cbn [remove app].
  - repeat constructor. intros [].
  - destruct (str_eq_dec k x) as [->|Hne]; [exact IH|].
    cbn [app]. constructor; [|exact IH].
    rewrite in_app_iff. intros [Hin|[->|[]]]; [|contradiction].
    apply in_remove in Hin. tauto.
Qed.

Lemma NoDup_identifiers_insert_all rows :
  NoDup (identifiers (insert_all rows [])).
Proof.
  induction rows as [|r rows IH] using rev_ind; [constructor|].
  rewrite insert_all_snoc, identifiers_insert.
  destruct (ruc r); [now apply NoDup_remove_snoc|exact IH].
Qed.

Lemma In_identifiers_insert_all k rows :
  In k (identifiers (insert_all rows [])) <-> In k (identifiers rows).
Proof.
  induction rows as [|r rows IH] using rev_ind; [reflexivity|].
  rewrite insert_all_snoc, identifiers_insert, identifiers_app, in_app_iff.
  unfold identifiers at 4. cbn [flat_map]. rewrite ?app_nil_r.
  destruct (ruc r) as [k'|].
  - rewrite in_app_iff. cbn [In]. split.
    + intros [Hin|H]; [|now right].
      apply in_remove in Hin. left. now apply IH.
    + intros [Hin|[->|[]]]; [|right; now left].
      destruct (str_eq_dec k k') as [->|Hne]; [right; now left|].
      left. apply in_in_remove; [exact Hne|now apply IH].
  - cbn [In]. rewrite IH. tauto.
Qed.

Lemma rows_by_identifier (t : table) :
  length t = (length (identifiers t) + length (filter no_ruc t))%nat.
Proof.
  induction t as [|x t IH]; [reflexivity|].
  change (x :: t) with ([x] ++ t) at 2. rewrite identifiers_app, length_app.
  cbn [filter]. unfold identifiers at 1. cbn [flat_map].
  unfold no_ruc at 1. destruct (ruc x); cbn [length app]; lia.
Qed.

Lemma insert_all_length rows :
  length (insert_all rows [])
  = (length (distinct_identifiers rows) + length (filter no_ruc rows))%nat.
Proof.
  rewrite rows_by_identifier, filter_no_ruc_insert_all. cbn [filter app].
  f_equal. unfold distinct_identifiers. apply Nat.le_antisymm.
  - apply NoDup_incl_length; [apply NoDup_identifiers_insert_all|].
    intros k Hk. apply nodup_In. now apply In_identifiers_insert_all.
  - apply NoDup_incl_length; [apply NoDup_nodup|].
    intros k Hk. apply nodup_In in Hk. now apply In_identifiers_insert_all.
Qed.

(** X16: after a run without faults the table has one row for each
    distinct identifier of the parsed records and one row for each parsed
    record without identifier; repeated identifiers are what separates the
    count of the table from the records counted as inserted. *)
Theorem table_counts_distinct_identifiers (header : str) (lines : list str)
    (w : world) :
  lines <> [] ->
  all_ok (stmt_env w) ->
  commit_env w = StmtOk ->
  len (committed (conn (snd (guarded (pipeline (map Line (header :: lines)))
                                     w))))
  = len (distinct_identifiers (parsed_records lines))
    + len (filter no_ruc (parsed_records lines)).
Proof.
  intros Hlines Hok Hce.
  rewrite (@guarded_pipeline_ok header lines w Hlines Hok Hce).
  cbn [committed]. unfold len. rewrite insert_all_length. lia.
Qed.

Lemma table_counts_distinct_identifiers_witness :
  len (committed (conn (snd (guarded
                               (pipeline (map Line (lit "RUC|NOMBRE|ESTADO"
                                                    :: padron_without_ruc)))
                               used_world))))
  = len (distinct_identifiers (parsed_records padron_without_ruc))
    + len (filter no_ruc (parsed_records padron_without_ruc)).
Proof.
  apply (@table_counts_distinct_identifiers (lit "RUC|NOMBRE|ESTADO")
           padron_without_ruc used_world).
  - discriminate.
  - constructor.
  - reflexivity.
Defined.

(** ** Where the rows of the table come from *)

Section Rows.

Variable P : record -> Prop.

Lemma Forall_insert_or_replace r t :
  P r -> Forall P t -> Forall P (insert_or_replace r t).
Proof.
  intros Hr Ht. unfold insert_or_replace.
  destruct (ruc r); apply Forall_app; split; auto.
  rewrite Forall_forall in *. intros x Hx. apply filter_In in Hx.
  now apply Ht.
Qed.

Lemma rows_execute_insert r :
  P r -> keeps (rows_satisfy P) any_exception (execute_insert r).
Proof.
  intros Hr w (Hc & Hw & Hb). unfold post, execute_insert, rows_satisfy.
  destruct (stmt_env w) as [|[| |] env]; cbn; repeat split; auto;
    now apply Forall_insert_or_replace.
Qed.

Lemma rows_executemany batch :
  Forall P batch ->
  keeps (rows_satisfy P) any_exception (executemany batch).
Proof.
  induction 1 as [|r batch Hr Hb IH]; cbn [executemany].
  - apply keeps_ret.
  - apply keeps_bind; [now apply rows_execute_insert|intros ?; exact IH].
Qed.

Lemma rows_stdout v w : rows_satisfy P w -> rows_satisfy P (set_stdout v w).
Proof. exact (fun H => H). Qed.

Lemma rows_insert_one_by_one batch :
  Forall P batch ->
  forall s, keeps (rows_satisfy P) (interrupt_only any_exception)
                  (insert_one_by_one batch s).
Proof.
  induction 1 as [|r batch Hr Hb IH]; intros s; cbn [insert_one_by_one].
  - apply keeps_ret.
  - apply keeps_bind; [|intros ?; apply IH].
    apply keeps_try with (Y := any_exception); [|now split|apply keeps_ret].
    apply keeps_bind; [now apply rows_execute_insert|intros ?].
    apply keeps_ret.
Qed.

Lemma rows_insert_batch batch :
  Forall P batch ->
  keeps (rows_satisfy P) (interrupt_only any_exception) (insert_batch batch).
Proof.
  intros Hb. unfold insert_batch.
  destruct (nonempty batch); [|apply keeps_ret].
  apply keeps_try with (Y := any_exception);
    [now apply rows_executemany|now split|].
  apply keeps_bind; [apply keeps_print, rows_stdout|intros ?].
  apply keeps_bind; [now apply rows_insert_one_by_one|intros ?].
  apply keeps_print, rows_stdout.
Qed.

Lemma rows_flush_batch :
  keeps (rows_satisfy P) (interrupt_only any_exception) flush_batch.
Proof.
  intros w Hw. unfold flush_batch. apply post_bind, post_get, post_bind.
  eapply post_mono;
    [apply (@rows_insert_batch (batch_records w) (proj2 (proj2 Hw)) w Hw)
    | |auto].
  intros ? w1 H1. apply post_modify. exact H1.
Qed.

Lemma rows_process_line n line :
  (forall r, parse_line line = Some r -> P r) ->
  keeps (rows_satisfy P) (interrupt_only any_exception) (process_line n line).
Proof.
  intros Hline. unfold process_line.
  apply keeps_bind; [|intros ?].
  { destruct (parse_line line) as [r|]; [destruct (nonempty r)|];
      apply keeps_modify; intros w (Hc & Hw & Hb); repeat split; auto.
    cbn. apply Forall_app. split; [exact Hb|]. repeat constructor.
    now apply Hline. }
  apply keeps_bind; [apply keeps_get|intros ?].
  apply keeps_bind; [|intros ?].
  { apply keeps_when.
    apply keeps_bind; [apply rows_flush_batch|intros ?].
    apply keeps_bind; [now apply keeps_modify|intros ?].
    apply keeps_bind; [apply keeps_get|intros ?].
    apply keeps_bind; [apply keeps_get|intros ?].
    apply keeps_bind;
      [apply keeps_when, keeps_show_progress, rows_stdout|intros ?].
    apply keeps_modify. intros w (Hc & Hw & Hb).
    repeat split; auto; constructor. }
  apply keeps_bind; [now apply keeps_modify|intros ?].
  apply keeps_bind; [apply keeps_get|intros ?].
  apply keeps_bind; [apply keeps_get|intros ?].
  apply keeps_when, keeps_show_progress, rows_stdout.
Qed.

Lemma rows_for_lines file :
  (forall line r, In (Line line) file -> parse_line line = Some r -> P r) ->
  forall n, keeps (rows_satisfy P) any_exception (for_lines n file).
Proof.
  induction file as [|[l| |] file IH]; intros Hfile n; cbn [for_lines].
  - apply keeps_ret.
  - apply keeps_bind; [|intros ?; apply IH].
    + apply keeps_try with (Y := interrupt_only any_exception).
      * apply rows_process_line. intros r. apply Hfile. now left.
      * easy.
      * now apply keeps_modify.
    + intros line r Hin. apply Hfile. now right.
  - now apply keeps_raise.
  - now apply keeps_raise.
Qed.

Lemma rows_load_data file :
  (forall line r,
     In (Line line) (tl file) -> parse_line line = Some r -> P r) ->
  forall w,
    Forall P (committed (conn w)) -> Forall P (working (conn w)) ->
    post (load_data file) w
         (fun _ => rows_satisfy P) (fun _ => rows_satisfy P).
Proof.
  intros Hfile w Hc Hw. unfold load_data. apply post_bind, post_modify.
  set (w0 := set_batch_records [] _).
  assert (H0 : rows_satisfy P w0) by (repeat split; auto; constructor).
  clearbody w0. apply post_try.
  eapply post_mono with (Q' := fun _ => rows_satisfy P)
                        (E' := fun _ => rows_satisfy P).
  2: { auto. }
  2: { intros [|] w' H'; [|exact H']. destruct H' as (H1 & H2 & H3).
       unfold rollback. repeat post_step. cbn. repeat split; auto. }
  apply post_bind. unfold post at 1, begin_transaction.
  destruct (pending (conn w0)) eqn:Hp; [exact H0|].
  set (w1 := set_conn _ w0).
  assert (H1 : rows_satisfy P w1).
  { destruct H0 as (H1 & H2 & H3). unfold w1. repeat split; auto. }
  clearbody w1. apply post_bind.
  assert (Hrest : keeps (rows_satisfy P) any_exception
            (for_lines 1 (tl file) ;;
             remaining <- get batch_records ;;
             when (nonempty remaining) flush_batch ;;
             commit ;;
             total_lines <- get lines_processed ;;
             errors <- get error_count ;;
             show_final_results total_lines errors)).
  { apply keeps_bind; [now apply rows_for_lines|intros ?].
    apply keeps_bind; [apply keeps_get|intros ?].
    apply keeps_bind; [|intros ?].
    { apply keeps_when.
      apply keeps_weaken with (Y := interrupt_only any_exception);
        [apply rows_flush_batch|easy]. }
    apply keeps_bind; [|intros ?].
    { intros w2 (H2 & H3 & H4). unfold post, commit.
      destruct (commit_env w2); cbn; repeat split; auto. }
    apply keeps_bind; [apply keeps_get|intros ?].
    apply keeps_bind; [apply keeps_get|intros ?].
    apply keeps_show_final_results. exact rows_stdout. }
  destruct file as [|[l| |] rest]; cbn [read_header tl] in *.
  - apply post_ret. eapply post_mono; [apply (Hrest w1 H1)|auto|].
    intros e w' [H' _]. exact H'.
  - apply post_ret. eapply post_mono; [apply (Hrest w1 H1)|auto|].
    intros e w' [H' _]. exact H'.
  - apply post_raise. exact H1.
  - apply post_raise. exact H1.
Qed.

(** The table at the end of the steps of [main]. *)
Lemma rows_guarded_pipeline file w :
  (forall line r,
     In (Line line) (tl file) -> parse_line line = Some r -> P r) ->
  Forall P (committed (conn (snd (guarded (pipeline file) w)))).
Proof.
  intros Hfile. rewrite pipeline_after_create_table.
  set (w1 := snd ((connect_db ;; create_table) w)).
  assert (Hc1 : Forall P (committed (conn w1))) by constructor.
  assert (Hw1 : Forall P (working (conn w1))) by constructor.
  pose proof (@rows_load_data file Hfile w1 Hc1 Hw1) as Hload.
  unfold guarded, bind at 1. unfold post in Hload.
  destruct (load_data file w1) as [[[]|[|]] w2].
  - destruct Hload as (H1 & H2 & H3).
    unfold create_indexes, optimize_database, verify_data, close.
    rewrite !bind_modify. cbn. exact H2.
  - destruct Hload as (H1 & H2 & H3). cbn. exact H1.
  - destruct Hload as (H1 & H2 & H3). cbn. exact H1.
Qed.

End Rows.

(** X17: whatever the file yields and whatever fails, every row of the
    table a run leaves is what [parse_line] gives for one of the lines
    read after the header, and so has fifteen values: nothing of the
    previous content of the database and nothing of the header is in
    it. *)
Theorem table_rows_come_from_data_lines (file : list read_event)
    (w : world) :
  Forall (fun r => parsed_from file r /\ length r = 15%nat)
         (committed (conn (snd (guarded (pipeline file) w)))).
Proof.
  apply rows_guarded_pipeline. intros line r Hin Hp. split.
  - now exists line.
  - unfold parse_line in Hp. destruct (strip line) as [|c s]; [discriminate|].
    injection Hp as <-. rewrite length_map. apply normalize_fields_length.
Qed.

(** ** From fields to a line and back *)

Lemma no_pipe_head c f :
  no_pipe (c :: f) = true -> char_eqb c PIPE = false /\ no_pipe f = true.
Proof.
  unfold no_pipe, char_eqb. cbn [existsb]. rewrite negb_orb, N.eqb_sym.
  intros H. apply andb_prop in H as [H1 H2].
  split; [now apply negb_true_iff|exact H2].
Qed.

Lemma split_no_pipe f : no_pipe f = true -> split PIPE f = [f].
Proof.
  induction f as [|c f IH]; [reflexivity|]. intros H.
  apply no_pipe_head in H as [Hc Hf]. cbn [split]. rewrite Hc.
  now rewrite IH by exact Hf.
Qed.

Lemma split_app_pipe f s :
  no_pipe f = true -> split PIPE (f ++ PIPE :: s) = f :: split PIPE s.
Proof.
  induction f as [|c f IH]; intros H.
  - cbn [app split]. unfold char_eqb. now rewrite N.eqb_refl.
  - apply no_pipe_head in H as [Hc Hf]. cbn [app split]. rewrite Hc.
    now rewrite IH by exact Hf.
Qed.

Lemma split_join fields :
  fields <> [] ->
  forallb no_pipe fields = true ->
  split PIPE (join [PIPE] fields) = fields.
Proof.
  induction fields as [|f fields IH]; [congruence|]. intros _ H.
  cbn [forallb] in H. apply andb_prop in H as [Hf Hrest].
  destruct fields as [|g fields].
  - cbn [join]. now apply split_no_pipe.
  - change (join [PIPE] (f :: g :: fields))
      with (f ++ PIPE :: join [PIPE] (g :: fields)).
    rewrite (@split_app_pipe f _ Hf). f_equal. apply IH; [discriminate|exact Hrest].
Qed.

Lemma map_clean_opt_Some fields :
  map clean_opt (map (@Some str) fields) = map clean_value fields.
Proof. rewrite map_map. reflexivity. Qed.

(** X18: fifteen fields without the delimiter, joined by it into a line
    that has no whitespace at its ends and followed by a line end or other
    whitespace, are read back by [parse_line] one by one: the record is
    [clean_value] of each field in order, nothing padded, merged or
    shifted. *)
Theorem parse_line_reads_back_fields (fields : list str) (line_end : str) :
  length fields = 15%nat ->
  forallb no_pipe fields = true ->
  strip (join [PIPE] fields) = join [PIPE] fields ->
  blank line_end = true ->
  parse_line (join [PIPE] fields ++ line_end)
  = Some (map clean_value fields).
Proof.
  intros Hlen Hpipe Hstrip Hend.
  assert (Hne : fields <> []) by (intros ->; discriminate).
  pose proof (@split_join fields Hne Hpipe) as Hsplit.
  assert (Hline : strip (join [PIPE] fields ++ line_end)
                  = join [PIPE] fields).
  { rewrite <- Hstrip at 2.
    apply (@strip_padding [] (join [PIPE] fields) line_end eq_refl Hend). }
  unfold parse_line. rewrite Hline.
  destruct (join [PIPE] fields) as [|c s] eqn:Hj.
  - cbn in Hsplit. rewrite <- Hsplit in Hlen. discriminate.
  - rewrite Hsplit. unfold normalize_fields. rewrite Hlen. cbn [Nat.ltb Nat.leb].
    now rewrite map_clean_opt_Some.
Qed.

Lemma parse_line_reads_back_fields_witness :
  parse_line (join [PIPE] fifteen_values ++ [10%N])
  = Some (map clean_value fifteen_values).
Proof.
  apply (@parse_line_reads_back_fields fifteen_values [10%N]);
    reflexivity.
Defined.

(** ** Text that cleaning empties, and the sample of [verify_data] *)

Lemma rev_repeat_same {A} (x : A) n : rev (repeat x n) = repeat x n.
Proof.
  induction n as [|n IH]; [reflexivity|].
  cbn [repeat rev]. rewrite IH. symmetry. apply repeat_cons.
Qed.

Lemma In_repeat_same {A} (x y : A) n : In y (repeat x n) -> y = x.
Proof. intros H. symmetry. now apply repeat_spec in H. Qed.

Lemma lstrip_stray_marks n : lstrip (repeat 194%N n) = repeat 194%N n.
Proof.
  destruct n as [|n]; [reflexivity|]. cbn [repeat lstrip].
  now change (isspace 194%N) with false.
Qed.

Lemma replace_stray_marks n : replace [194%N] [] (repeat 194%N n) = [].
Proof.
  unfold replace. induction n as [|n IH]; [reflexivity|].
  cbn [repeat replace_from is_prefix length Nat.sub app].
  unfold char_eqb. rewrite N.eqb_refl. cbn [andb]. exact IH.
Qed.

(** X19: a field that consists of U+00C2 characters only is stored as the
    empty text, not as NULL: the field is neither empty, nor the dash, nor
    blank, and the table deletes every one of its characters. *)
Theorem clean_value_can_return_empty_text (n : nat) :
  clean_value (repeat 194%N (S n)) = Some [].
Proof.
  assert (Hstrip : strip (repeat 194%N (S n)) = repeat 194%N (S n)).
  { unfold strip, rstrip.
    now rewrite lstrip_stray_marks, rev_repeat_same, lstrip_stray_marks,
      rev_repeat_same. }
  unfold clean_value. rewrite Hstrip.
  assert (Hd : str_eqb (repeat 194%N (S n)) [DASH] = false) by reflexivity.
  rewrite Hd. cbn [repeat str_eqb orb]. f_equal.
  change (194%N :: repeat 194%N n) with (repeat 194%N (S n)).
  assert (H195 : forall old new,
            In 195%N old ->
            replace old new (repeat 194%N (S n)) = repeat 194%N (S n)).
  { intros old new Hin. apply replace_free.
    apply (@free_absent_char old _ 195%N Hin).
    intros H. apply In_repeat_same in H. discriminate. }
  unfold apply_replacements, replacements. cbn [fold_left fst snd].
  rewrite !H195 by (cbn; tauto).
  rewrite replace_stray_marks. reflexivity.
Qed.

(** X20: the sample of [verify_data] shows at most 53 characters of a
    value: a text of up to 50 characters as it is, a longer one as its
    first 50 characters followed by three dots, 53 characters in all, and
    [NULL] for a missing value and for the empty text alike. *)
Theorem display_val_cuts_at_fifty (val : value) :
  (length (display_val val) <= 53)%nat /\
  match val with
  | Some (c :: s) =>
      if (length (c :: s) <=? 50)%nat
      then display_val val = c :: s
      else display_val val = firstn 50 (c :: s) ++ lit "..." /\
           length (display_val val) = 53%nat
  | _ => display_val val = lit "NULL"
  end.
Proof.
  destruct val as [[|c s]|]; [split; [cbn; lia|reflexivity]|
                              |split; [cbn; lia|reflexivity]].
  unfold display_val.
  destruct (Nat.ltb_spec 50 (length (c :: s))) as [Hlong|Hshort].
  - assert (Hlen : length (firstn 50 (c :: s) ++ lit "...") = 53%nat).
    { rewrite length_app, length_firstn.
      change (length (lit "...")) with 3%nat. lia. }
    destruct (Nat.leb_spec (length (c :: s)) 50) as [|_]; [lia|].
    split; [lia|]. split; [reflexivity|exact Hlen].
  - destruct (Nat.leb_spec (length (c :: s)) 50) as [_|]; [|lia].
    split; [lia|reflexivity].
Qed.

(** ** Faults before the summary *)


